(** * adt::string_ref: a shallow embedding and its verified properties

    The development follows [include/adt/string-ref.h] and
    [src/adt/string-ref.cc].  A [string_ref] is a pair of a [const char *]
    and a [size_t]; it owns nothing.  Three things of the C++ source need a
    model of their own:

    - [size_t] is a 64-bit unsigned integer: a [Z] in [0, 2^64), every
      subtraction and addition of the source written with its wrap-around;
    - a [const char *] is either null or an offset into a block of
      characters (the object it points into).  Reading outside the block is
      undefined behaviour;
    - a call either returns a value, stops on a failed [assert], or has
      undefined behaviour: the [outcome] monad. *)

From Stdlib Require Import ZArith Ascii String List Bool Lia.
Import ListNotations.

Local Open Scope Z_scope.

(** ** Machine integers *)

Module SizeT.

Definition modulus : Z := 2 ^ 64.

(** Reduction of a mathematical integer to its [size_t] representative. *)
Definition wrap (z : Z) : Z := z mod modulus.

(** [PTRDIFF_MAX]: no object is larger than this many bytes. *)
Definition ptrdiff_max : Z := 2 ^ 63 - 1.

Definition in_range (z : Z) : Prop := 0 <= z < modulus.

End SizeT.

Import SizeT.

(** ** Outcomes of a call *)

Inductive outcome (A : Type) : Type :=
| Val (a : A)   (* the call returns [a] *)
| Abort         (* an [assert] failed *)
| Undef.        (* undefined behaviour: an access outside the object *)

Arguments Val {A} a.
Arguments Abort {A}.
Arguments Undef {A}.

Definition bind {A B : Type} (m : outcome A) (k : A -> outcome B) : outcome B :=
  match m with
  | Val a => k a
  | Abort => Abort
  | Undef => Undef
  end.

Notation "x <- m ;; k" := (bind m (fun x => k))
  (at level 61, m at next level, right associativity).

(** [assert(cond)] of <cassert>, with assertions enabled. *)
Definition assert (cond : bool) : outcome unit :=
  if cond then Val tt else Abort.

(** ** Pointers and the characters behind them *)

Definition NUL : ascii := zero.

Inductive pointer : Type :=
| Null
| Ptr (block : list ascii) (off : Z).

(** [p + k] *)
Definition ptr_add (p : pointer) (k : Z) : pointer :=
  match p with
  | Null => Null
  | Ptr b o => Ptr b (o + k)
  end.

(** [p - k] *)
Definition ptr_sub (p : pointer) (k : Z) : pointer :=
  match p with
  | Null => Null
  | Ptr b o => Ptr b (o - k)
  end.

(** [p[i]] *)
Definition read (p : pointer) (i : Z) : outcome ascii :=
  match p with
  | Null => Undef
  | Ptr b o =>
      if (0 <=? o + i) && (o + i <? Z.of_nat (length b))
      then match nth_error b (Z.to_nat (o + i)) with
           | Some c => Val c
           | None => Undef
           end
      else Undef
  end.

(** The [n] characters [p[0]], ..., [p[n-1]], read in one go (as [memcmp]
    and the constructor [std::string(p, n)] do). *)
Definition load (p : pointer) (n : Z) : outcome (list ascii) :=
  match p with
  | Null => if n =? 0 then Val [] else Undef
  | Ptr b o =>
      if (0 <=? o) && (0 <=? n) && (o + n <=? Z.of_nat (length b))
      then Val (firstn (Z.to_nat n) (skipn (Z.to_nat o) b))
      else Undef
  end.

(** Number of characters of the object from [p] on. *)
Definition extent (p : pointer) : Z :=
  match p with
  | Null => 0
  | Ptr b o => Z.of_nat (length b) - o
  end.

(** A pointer into (or one past the end of) an object of admissible size. *)
Definition ptr_ok (p : pointer) : Prop :=
  match p with
  | Null => True
  | Ptr b o => 0 <= o <= Z.of_nat (length b) /\ Z.of_nat (length b) <= ptrdiff_max
  end.

(** A string literal, or the [c_str()] of a [std::string]: the characters
    followed by the terminator. *)
Definition c_str (s : list ascii) : pointer := Ptr (s ++ [NUL]) 0.

Definition lit (s : string) : pointer := c_str (list_ascii_of_string s).

(** ** <cstring> *)

Fixpoint find_nul (l : list ascii) (i : Z) : outcome Z :=
  match l with
  | [] => Undef
  | c :: l' => if Ascii.eqb c NUL then Val i else find_nul l' (i + 1)
  end.

(** [strlen]: undefined when no terminator lies within the object. *)
Definition strlen (p : pointer) : outcome Z :=
  match p with
  | Null => Undef
  | Ptr b o =>
      if (0 <=? o) && (o <=? Z.of_nat (length b))
      then find_nul (skipn (Z.to_nat o) b) 0
      else Undef
  end.

(** Characters compare as [unsigned char]. *)
Definition uchar (c : ascii) : Z := Z.of_N (N_of_ascii c).

Fixpoint lex_cmp (l r : list ascii) : Z :=
  match l, r with
  | x :: l', y :: r' =>
      if Ascii.eqb x y then lex_cmp l' r' else uchar x - uchar y
  | _, _ => 0
  end.

Definition memcmp (lhs rhs : pointer) (n : Z) : outcome Z :=
  l <- load lhs n ;;
  r <- load rhs n ;;
  Val (lex_cmp l r).

(** ** The class *)

Record string_ref : Type := mk_string_ref {
  ps : pointer;
  len : Z
}.

Definition npos : Z := wrap (-1).
Definition capacity : Z := npos.

(** private: [memCompare] *)
Definition memCompare (lhs rhs : pointer) (n : Z) : outcome Z :=
  if n =? 0 then Val 0 else memcmp lhs rhs n.

(** *** Constructors *)

(** [string_ref()] *)
Definition string_ref_default : string_ref := mk_string_ref Null 0.

(** [string_ref(const char *str)] *)
Definition string_ref_cstr (str : pointer) : outcome string_ref :=
  n <- match str with
       | Null => Val 0
       | Ptr _ _ => strlen str
       end ;;
  Val (mk_string_ref str n).

(** [string_ref(const char *str, size_t len)] *)
Definition string_ref_ptr_len (str : pointer) (n : Z) : string_ref :=
  mk_string_ref str n.

(** [string_ref(const std::string &s)] *)
Definition string_ref_std (s : list ascii) : string_ref :=
  mk_string_ref (c_str s) (Z.of_nat (length s)).

(** [string_ref(const std::string &s, size_t n)] *)
Definition string_ref_std_n (s : list ascii) (n : Z) : string_ref :=
  mk_string_ref (c_str s)
    (if n <? Z.of_nat (length s) then n else Z.of_nat (length s)).

(** [withNullAsEmpty] *)
Definition withNullAsEmpty (ptr : pointer) : outcome string_ref :=
  string_ref_cstr (match ptr with Null => lit "" | Ptr _ _ => ptr end).

(** A view of a literal, as in [string_ref("abc")]. *)
Definition View (s : string) : outcome string_ref := string_ref_cstr (lit s).

(** [string_ref(std::string("..."))], for examples. *)
Definition std (s : string) : string_ref :=
  string_ref_std (list_ascii_of_string s).

(** *** Basic accessors *)

Definition empty (v : string_ref) : bool := len v =? 0.
Definition ptr (v : string_ref) : pointer := ps v.
Definition size (v : string_ref) : Z := len v.
Definition begin_ (v : string_ref) : pointer := ps v.
Definition end_ (v : string_ref) : pointer := ptr_add (ps v) (len v).

Definition to_string (v : string_ref) : outcome (list ascii) :=
  load (ps v) (len v).

Definition front (v : string_ref) : outcome ascii :=
  _ <- assert (negb (empty v)) ;;
  read (ps v) 0.

Definition back (v : string_ref) : outcome ascii :=
  _ <- assert (negb (empty v)) ;;
  read (ps v) (wrap (len v - 1)).

(** [operator[]] *)
Definition index (v : string_ref) (pos : Z) : outcome ascii :=
  _ <- assert (pos <? len v) ;;
  read (ps v) pos.

Definition equals (v rhs : string_ref) : outcome bool :=
  if len v =? len rhs
  then comp <- memCompare (ps v) (ps rhs) (len v) ;; Val (comp =? 0)
  else Val false.

Definition compare (v rhs : string_ref) : outcome Z :=
  comp <- memCompare (ps v) (ps rhs) (Z.min (len v) (len rhs)) ;;
  if negb (comp =? 0) then Val (if comp <? 0 then -1 else 1)
  else if len v =? len rhs then Val 0
  else Val (if len v <? len rhs then -1 else 1).

(** *** Slicing *)

Definition substr (v : string_ref) (start num : Z) : string_ref :=
  let start := Z.min start (len v) in
  mk_string_ref (ptr_add (ps v) start) (Z.min num (wrap (len v - start))).

Definition slice (v : string_ref) (start stop : Z) : string_ref :=
  let '(start, stop) := if start >? stop then (stop, start) else (start, stop) in
  let start := Z.min start (len v) in
  let stop := Z.min (Z.max start stop) (len v) in
  mk_string_ref (ptr_add (ps v) start) (wrap (stop - start)).

Definition take_front (v : string_ref) (n : Z) : string_ref :=
  mk_string_ref (ps v) (Z.min n (len v)).

Definition drop_front (v : string_ref) (n : Z) : outcome string_ref :=
  _ <- assert (n <=? len v) ;;
  Val (substr v n capacity).

Definition drop_back (v : string_ref) (n : Z) : outcome string_ref :=
  _ <- assert (n <=? len v) ;;
  Val (substr v 0 (wrap (len v - n))).

Definition take_back (v : string_ref) (n : Z) : outcome string_ref :=
  if n <=? len v then drop_front v (wrap (len v - n)) else Val v.

(** ** Well-formed views and their contents *)

(** The class invariant: the [len] characters from [ps] on lie within the
    object [ps] points into. *)
Definition valid (v : string_ref) : Prop :=
  ptr_ok (ps v) /\ 0 <= len v <= extent (ps v).

(** The character sequence a view denotes. *)
Definition chars (v : string_ref) : list ascii :=
  match ps v with
  | Null => []
  | Ptr b o => firstn (Z.to_nat (len v)) (skipn (Z.to_nat o) b)
  end.

(** The characters at positions [lo], ..., [hi - 1]. *)
Definition range {A : Type} (l : list A) (lo hi : Z) : list A :=
  firstn (Z.to_nat (hi - lo)) (skipn (Z.to_nat lo) l).

(** ** Searching *)

(** [for (size_t i = start; i < len; ++i)] runs [len - start] times. *)
Fixpoint find_char_loop (p : pointer) (c : ascii) (n : nat) (i : Z) : outcome Z :=
  match n with
  | O => Val npos
  | S n' =>
      x <- read p i ;;
      if Ascii.eqb c x then Val i else find_char_loop p c n' (wrap (i + 1))
  end.

Definition find_char (v : string_ref) (c : ascii) (start : Z) : outcome Z :=
  if start >=? len v then Val npos
  else find_char_loop (ps v) c (Z.to_nat (len v - start)) start.

(** [find(char c, size_t start = 0)] *)
Definition find (v : string_ref) (c : ascii) : outcome Z := find_char v c 0.

(** [for (size_t i = ...; i >= 0; --i)]: the test compares an unsigned
    integer with zero, so nothing in the loop header bounds the number of
    iterations.  The loop is run on fuel; [None] is "out of fuel". *)
Fixpoint rfind_char_loop (fuel : nat) (p : pointer) (c : ascii) (i : Z)
  : option (outcome Z) :=
  match fuel with
  | O => None
  | S fuel' =>
      if i >=? 0 then
        match read p i with
        | Val x =>
            if Ascii.eqb c x then Some (Val i)
            else rfind_char_loop fuel' p c (wrap (i - 1))
        | Abort => Some Abort
        | Undef => Some Undef
        end
      else Some (Val npos)
  end.

Definition rfind_char (fuel : nat) (v : string_ref) (c : ascii) (rstart : Z)
  : option (outcome Z) :=
  rfind_char_loop fuel (ps v) c (Z.min rstart (wrap (len v - 1))).

(** [rfind(char c, size_t rstart = npos)] *)
Definition rfind (fuel : nat) (v : string_ref) (c : ascii) : option (outcome Z) :=
  rfind_char fuel v c npos.

(** [for (size_t i = start, e = len; i != e; ++i)] *)
Fixpoint find_if_loop (p : pointer) (pred : ascii -> bool) (n : nat) (i : Z)
  : outcome Z :=
  match n with
  | O => Val npos
  | S n' =>
      x <- read p i ;;
      if pred x then Val i else find_if_loop p pred n' (wrap (i + 1))
  end.

Definition find_if (v : string_ref) (pred : ascii -> bool) (start : Z) : outcome Z :=
  if start >=? len v then Val npos
  else find_if_loop (ps v) pred (Z.to_nat (wrap (len v - start))) start.

Definition find_if_not (v : string_ref) (pred : ascii -> bool) (start : Z)
  : outcome Z :=
  find_if v (fun c => negb (pred c)) start.

Fixpoint rfind_if_loop (fuel : nat) (p : pointer) (pred : ascii -> bool) (i : Z)
  : option (outcome Z) :=
  match fuel with
  | O => None
  | S fuel' =>
      if i >=? 0 then
        match read p i with
        | Val x =>
            if pred x then Some (Val i)
            else rfind_if_loop fuel' p pred (wrap (i - 1))
        | Abort => Some Abort
        | Undef => Some Undef
        end
      else Some (Val npos)
  end.

Definition rfind_if (fuel : nat) (v : string_ref) (pred : ascii -> bool)
  (rstart : Z) : option (outcome Z) :=
  rfind_if_loop fuel (ps v) pred (Z.min rstart (wrap (len v - 1))).

Definition rfind_if_not (fuel : nat) (v : string_ref) (pred : ascii -> bool)
  (rstart : Z) : option (outcome Z) :=
  rfind_if fuel v (fun c => negb (pred c)) rstart.

(** [take_front_while]: the longest prefix whose characters all satisfy
    the predicate. *)
Definition take_front_while (v : string_ref) (pred : ascii -> bool)
  : outcome string_ref :=
  n <- find_if_not v pred 0 ;;
  Val (substr v 0 n).

(** *** Substring search through the C and C++ libraries *)

(** The characters of [l] before its first terminator. *)
Fixpoint until_nul (l : list ascii) : option (list ascii) :=
  match l with
  | [] => None
  | c :: l' =>
      if Ascii.eqb c NUL then Some []
      else match until_nul l' with
           | Some s => Some (c :: s)
           | None => None
           end
  end.

(** The C string at [p]; a character array without terminator is not one. *)
Definition c_string (p : pointer) : outcome (list ascii) :=
  match p with
  | Null => Undef
  | Ptr b o =>
      if (0 <=? o) && (o <=? Z.of_nat (length b))
      then match until_nul (skipn (Z.to_nat o) b) with
           | Some s => Val s
           | None => Undef
           end
      else Undef
  end.

Fixpoint prefixb (p s : list ascii) : bool :=
  match p, s with
  | [], _ => true
  | x :: p', y :: s' => Ascii.eqb x y && prefixb p' s'
  | _ :: _, [] => false
  end.

(** Position of the first occurrence of [needle] in [hay], counted from [i]. *)
Fixpoint first_occ (needle hay : list ascii) (i : Z) : option Z :=
  if prefixb needle hay then Some i
  else match hay with
       | [] => None
       | _ :: hay' => first_occ needle hay' (i + 1)
       end.

(** Position of the last occurrence of [needle] in [hay], counted from [i]. *)
Fixpoint last_occ (needle hay : list ascii) (i : Z) : option Z :=
  match hay with
  | [] => if prefixb needle [] then Some i else None
  | _ :: hay' =>
      match last_occ needle hay' (i + 1) with
      | Some j => Some j
      | None => if prefixb needle hay then Some i else None
      end
  end.

(** [strstr(haystack, needle)]: both arguments are C strings; the result
    points to the first occurrence of the needle, or is null. *)
Definition strstr (haystack needle : pointer) : outcome pointer :=
  h <- c_string haystack ;;
  n <- c_string needle ;;
  match first_occ n h 0 with
  | Some i => Val (ptr_add haystack i)
  | None => Val Null
  end.

(** [p - q] for pointers into one object. *)
Definition ptr_diff (p q : pointer) : Z :=
  match p, q with
  | Ptr _ o1, Ptr _ o2 => o1 - o2
  | _, _ => 0
  end.

(** [std::string::rfind(str)]: position of the last occurrence,
    [std::string::npos] if there is none. *)
Definition std_string_rfind (s str : list ascii) : Z :=
  match last_occ str s 0 with
  | Some i => i
  | None => npos
  end.

Definition find_str (v pattern : string_ref) : outcome Z :=
  if size pattern =? 0 then Val 0
  else
    needle <- to_string pattern ;;
    found <- strstr (ps v) (c_str needle) ;;
    match found with
    | Null => Val npos
    | Ptr _ _ => Val (wrap (ptr_diff found (ps v)))
    end.

Definition rfind_str (v pattern : string_ref) : outcome Z :=
  if size pattern =? 0 then Val 0
  else
    s <- to_string v ;;
    str <- to_string pattern ;;
    let pos := std_string_rfind s str in
    if pos =? npos then Val npos else Val pos.

Definition contains (v : string_ref) (c : ascii) : outcome bool :=
  r <- find v c ;; Val (negb (r =? npos)).

Definition contains_str (v pattern : string_ref) : outcome bool :=
  r <- find_str v pattern ;; Val (negb (r =? npos)).

Definition starts_with (v prefix : string_ref) : outcome bool :=
  if len prefix <=? len v
  then comp <- memCompare (ps v) (ps prefix) (len prefix) ;; Val (comp =? 0)
  else Val false.

Definition ends_with (v suffix : string_ref) : outcome bool :=
  if len suffix <=? len v
  then comp <- memCompare (ptr_sub (end_ v) (len suffix)) (ps suffix) (len suffix) ;;
       Val (comp =? 0)
  else Val false.

(** *** Counting *)

Fixpoint count_char_loop (p : pointer) (c : ascii) (n : nat) (i count : Z)
  : outcome Z :=
  match n with
  | O => Val count
  | S n' =>
      x <- read p i ;;
      count_char_loop p c n' (wrap (i + 1))
        (if Ascii.eqb x c then wrap (count + 1) else count)
  end.

Definition count_char (v : string_ref) (c : ascii) : outcome Z :=
  count_char_loop (ps v) c (Z.to_nat (len v)) 0 0.

(** [for (size_t i = 0, e = len - patternLen + 1; i != e; ++i)] runs
    [e - i] times, modulo 2^64. *)
Fixpoint count_str_loop (v pattern : string_ref) (n : nat) (i count : Z)
  : outcome Z :=
  match n with
  | O => Val count
  | S n' =>
      hit <- equals (substr v i (len pattern)) pattern ;;
      count_str_loop v pattern n' (wrap (i + 1))
        (if hit then wrap (count + 1) else count)
  end.

Definition count_str (v pattern : string_ref) : outcome Z :=
  let patternLen := len pattern in
  if patternLen >? len v then Val 0
  else
    let e := wrap (wrap (len v - patternLen) + 1) in
    count_str_loop v pattern (Z.to_nat (wrap (e - 0))) 0 0.

(** *** Splitting *)

Definition split (v : string_ref) (sep : ascii)
  : outcome (string_ref * string_ref) :=
  pos <- find v sep ;;
  if pos =? npos then Val (v, string_ref_default)
  else Val (slice v 0 pos, slice v (wrap (pos + 1)) (len v)).

Definition split_str (v sep : string_ref)
  : outcome (string_ref * string_ref) :=
  pos <- find_str v sep ;;
  if pos =? npos then Val (v, string_ref_default)
  else Val (slice v 0 pos, slice v (wrap (pos + size sep)) (len v)).

Definition rsplit (fuel : nat) (v : string_ref) (sep : ascii)
  : option (outcome (string_ref * string_ref)) :=
  option_map
    (fun r =>
       pos <- r ;;
       if pos =? npos then Val (v, string_ref_default)
       else Val (slice v 0 pos, slice v (wrap (pos + 1)) (len v)))
    (rfind fuel v sep).

Definition rsplit_str (v sep : string_ref)
  : outcome (string_ref * string_ref) :=
  pos <- rfind_str v sep ;;
  if pos =? npos then Val (v, string_ref_default)
  else Val (slice v 0 pos, slice v (wrap (pos + size sep)) (len v)).

(** *** Edit distance *)

(** [std::vector<size_t>]; [operator[]] outside the vector is undefined. *)
Definition vec_make (n x : Z) : list Z := repeat x (Z.to_nat n).

Definition vec_get (d : list Z) (j : Z) : outcome Z :=
  if (0 <=? j) && (j <? Z.of_nat (length d))
  then Val (nth (Z.to_nat j) d 0)
  else Undef.

Fixpoint list_set (d : list Z) (k : nat) (x : Z) : list Z :=
  match d, k with
  | [], _ => []
  | _ :: d', O => x :: d'
  | y :: d', S k' => y :: list_set d' k' x
  end.

Definition vec_set (d : list Z) (j x : Z) : outcome (list Z) :=
  if (0 <=? j) && (j <? Z.of_nat (length d))
  then Val (list_set d (Z.to_nat j) x)
  else Undef.

(** [std::tolower] in the "C" locale. *)
Definition tolower (c : ascii) : ascii :=
  let n := N_of_ascii c in
  if ((65 <=? n) && (n <=? 90))%N then ascii_of_N (n + 32) else c.

(** [for (size_t j = 1; j <= len2; j++) { dp[j] = j; }] *)
Fixpoint init_row (n : nat) (j : Z) (dp : list Z) : outcome (list Z) :=
  match n with
  | O => Val dp
  | S n' =>
      dp <- vec_set dp j j ;;
      init_row n' (wrap (j + 1)) dp
  end.

Definition same_char (case_sensitive : bool) (a b : ascii) : bool :=
  if case_sensitive then Ascii.eqb a b
  else Ascii.eqb (tolower a) (tolower b).

(** The loop over [j], for one [i]. *)
Fixpoint fill_row (case_sensitive : bool) (s1 s2 : string_ref) (i : Z)
  (n : nat) (j : Z) (dp dpPrev : list Z) : outcome (list Z) :=
  match n with
  | O => Val dp
  | S n' =>
      a <- index s1 (wrap (i - 1)) ;;
      b <- index s2 (wrap (j - 1)) ;;
      dp <- (if same_char case_sensitive a b
             then
               diag <- vec_get dpPrev (wrap (j - 1)) ;;
               vec_set dp j diag
             else
               diag <- vec_get dpPrev (wrap (j - 1)) ;;
               left <- vec_get dp (wrap (j - 1)) ;;
               up <- vec_get dpPrev j ;;
               vec_set dp j
                 (Z.min (wrap (diag + 1))
                    (Z.min (wrap (left + 1)) (wrap (up + 1))))) ;;
      fill_row case_sensitive s1 s2 i n' (wrap (j + 1)) dp dpPrev
  end.

(** The loop over [i]; each round starts with [swap(dp, dpPrev)]. *)
Fixpoint fill_rows (case_sensitive : bool) (s1 s2 : string_ref)
  (n : nat) (i : Z) (dp dpPrev : list Z) : outcome (list Z) :=
  match n with
  | O => Val dp
  | S n' =>
      let '(dp, dpPrev) := (dpPrev, dp) in
      dp <- vec_set dp 0 i ;;
      dp <- fill_row case_sensitive s1 s2 i (Z.to_nat (len s2)) 1 dp dpPrev ;;
      fill_rows case_sensitive s1 s2 n' (wrap (i + 1)) dp dpPrev
  end.

Definition edit_distance (s1 s2 : string_ref) (case_sensitive : bool)
  : outcome Z :=
  let len1 := size s1 in
  let len2 := size s2 in
  if (len1 =? 0) || (len2 =? 0) then Val (wrap (len1 + len2))
  else
    let dp := vec_make (wrap (len2 + 1)) 0 in
    let dpPrev := vec_make (wrap (len2 + 1)) 0 in
    dp <- init_row (Z.to_nat len2) 1 dp ;;
    dp <- fill_rows case_sensitive s1 s2 (Z.to_nat len1) 1 dp dpPrev ;;
    vec_get dp len2.

(** ** Free operators *)

Definition op_eq (lhs rhs : string_ref) : outcome bool := equals lhs rhs.

Definition op_ne (lhs rhs : string_ref) : outcome bool :=
  e <- equals lhs rhs ;; Val (negb e).

Definition op_lt (lhs rhs : string_ref) : outcome bool :=
  c <- compare lhs rhs ;; Val (c <? 0).

Definition op_le (lhs rhs : string_ref) : outcome bool :=
  c <- compare lhs rhs ;; Val (c <=? 0).

Definition op_gt (lhs rhs : string_ref) : outcome bool :=
  c <- compare lhs rhs ;; Val (c >? 0).

Definition op_ge (lhs rhs : string_ref) : outcome bool :=
  c <- compare lhs rhs ;; Val (c >=? 0).

(** The free function [adt::edit_distance]. *)
Definition adt_edit_distance (lhs rhs : string_ref) (case_sensitive : bool)
  : outcome Z :=
  edit_distance lhs rhs case_sensitive.

(** ** Hashing, appending and printing *)

(** [Hash::operator()]: [std::hash<std::string>] of a copy of the
    characters.  The hash function of the standard library is a parameter. *)
Definition Hash (std_hash : list ascii -> Z) (s : string_ref) : outcome Z :=
  str <- load (ptr s) (size s) ;;
  Val (std_hash str).

(** [operator+(std::string, string_ref)] *)
Definition op_plus (stdstr : list ascii) (sr : string_ref)
  : outcome (list ascii) :=
  let res := stdstr in
  tail <- load (ptr sr) (size sr) ;;
  Val (res ++ tail).

(** [operator+=(std::string, string_ref)]: the string is taken by value,
    so the result is the appended copy. *)
Definition op_plus_assign (stdstr : list ascii) (sr : string_ref)
  : outcome (list ascii) :=
  tail <- load (ptr sr) (size sr) ;;
  Val (stdstr ++ tail).

(** [operator<<(std::ostream &, string_ref)]; a stream is the sequence of
    characters written to it. *)
Definition op_shl (os : list ascii) (sr : string_ref) : outcome (list ascii) :=
  str <- load (ptr sr) (size sr) ;;
  Val (os ++ str).

(** ** [cstr_tolower] *)

(** A character between ['A'] and ['Z'] is replaced by itself [| 0x60],
    any other is left as it is. *)
Definition lower_or (c : ascii) : ascii :=
  let n := N_of_ascii c in
  if ((65 <=? n) && (n <=? 90))%N then ascii_of_N (N.lor n 96) else c.

(** [for (char *p = pstr; *p; ++p)] over the characters from [pstr] on;
    the result is what these characters are after the loop.  Running off
    the object before a terminator is read is undefined. *)
Fixpoint cstr_tolower_loop (l : list ascii) : outcome (list ascii) :=
  match l with
  | [] => Undef
  | c :: l' =>
      if Ascii.eqb c NUL then Val l
      else
        rest <- cstr_tolower_loop l' ;;
        Val (lower_or c :: rest)
  end.

(** The function returns nothing; the model returns the pointer into the
    object as it is after the call. *)
Definition cstr_tolower (pstr : pointer) : outcome pointer :=
  match pstr with
  | Null => Undef
  | Ptr b o =>
      if (0 <=? o) && (o <=? Z.of_nat (length b))
      then
        after <- cstr_tolower_loop (skipn (Z.to_nat o) b) ;;
        Val (Ptr (firstn (Z.to_nat o) b ++ after) o)
      else Undef
  end.

(** ** Reference notions the properties are stated against *)

(** Levenshtein distance, by its defining recurrence. *)
Fixpoint levenshtein (s t : list ascii) : nat :=
  match s with
  | [] => length t
  | x :: s' =>
      (fix against (t : list ascii) : nat :=
         match t with
         | [] => length s
         | y :: t' =>
             Nat.min (levenshtein s' t' + (if Ascii.eqb x y then 0 else 1))
               (Nat.min (levenshtein s' t + 1) (against t' + 1))
         end) t
  end.

(** An alignment of [s] with [t] that costs [n] single-character
    insertions, deletions and substitutions. *)
Inductive edits : list ascii -> list ascii -> nat -> Prop :=
| edits_nil : edits [] [] 0
| edits_keep x s t n : edits s t n -> edits (x :: s) (x :: t) n
| edits_subst x y s t n : edits s t n -> edits (x :: s) (y :: t) (S n)
| edits_delete x s t n : edits s t n -> edits (x :: s) t (S n)
| edits_insert y s t n : edits s t n -> edits s (y :: t) (S n).

(** A view that is also a C string: the character after the last one is
    the terminator, and no character of the view is. *)
Definition terminated (v : string_ref) : Prop :=
  read (ps v) (len v) = Val NUL /\ ~ In NUL (chars v).

(** The first position of [l] that holds [c]. *)
Fixpoint index_of (c : ascii) (l : list ascii) : option nat :=
  match l with
  | [] => None
  | x :: l' =>
      if Ascii.eqb c x then Some O
      else match index_of c l' with
           | Some k => Some (S k)
           | None => None
           end
  end.

(** Does [pat] match exactly at start position [i] of [s]? *)
Definition matches_at (pat s : list ascii) (i : nat) : bool :=
  if list_eq_dec ascii_dec (firstn (length pat) (skipn i s)) pat
  then true else false.

(** Number of start positions [0 <= i <= length s - length pat] at which
    [pat] matches exactly. *)
Definition occurrences (pat s : list ascii) : nat :=
  length (filter (matches_at pat s) (seq 0 (length s - length pat + 1))).

(** Lexicographic three-way comparison of character sequences, a proper
    prefix being smaller: -1, 0 or 1. *)
Fixpoint lexico (l r : list ascii) : Z :=
  match l, r with
  | [], [] => 0
  | [], _ :: _ => -1
  | _ :: _, [] => 1
  | x :: l', y :: r' =>
      if uchar x <? uchar y then -1
      else if uchar y <? uchar x then 1
      else lexico l' r'
  end.

(** The longest prefix of [l] whose elements all satisfy [pred]. *)
Fixpoint take_while (pred : ascii -> bool) (l : list ascii) : list ascii :=
  match l with
  | [] => []
  | x :: l' => if pred x then x :: take_while pred l' else []
  end.

(** The character at index [k] of the view satisfies [pred]. *)
Definition holds_at (v : string_ref) (pred : ascii -> bool) (k : Z) : Prop :=
  exists x, nth_error (chars v) (Z.to_nat k) = Some x /\ pred x = true.

(** [r] is the first index from [start] on whose character satisfies
    [pred]. *)
Definition first_from (v : string_ref) (pred : ascii -> bool) (start r : Z)
  : Prop :=
  start <= r < len v /\ holds_at v pred r
  /\ forall k, start <= k < r -> ~ holds_at v pred k.

(** No character from index [start] on satisfies [pred]. *)
Definition none_from (v : string_ref) (pred : ascii -> bool) (start : Z)
  : Prop :=
  forall k, start <= k < len v -> ~ holds_at v pred k.

(** All characters below 128: those for which [std::tolower] is defined
    whatever the signedness of [char]. *)
Definition ascii_only (l : list ascii) : Prop :=
  Forall (fun c => uchar c < 128) l.

(** ** Notions used in the proofs *)

(** What [compare] computes from the [memcmp] result and the two lengths. *)
Definition three_way (comp la lb : Z) : Z :=
  if negb (comp =? 0) then (if comp <? 0 then -1 else 1)
  else if la =? lb then 0
  else if la <? lb then -1 else 1.

(** The first [i] characters, last one first. *)
Definition pre (s : list ascii) (i : Z) : list ascii :=
  rev (firstn (Z.to_nat i) s).

(** The entry in row [i], column [j] of the full table of [edit_distance]:
    the distance between the first [i] characters of [s1] and the first [j]
    characters of [s2]. *)
Definition table_cell (s1 s2 : string_ref) (i j : Z) : Z :=
  Z.of_nat (levenshtein (pre (chars s1) i) (pre (chars s2) j)).

(** [d] is row [i] of the table. *)
Definition is_row (s1 s2 : string_ref) (i : Z) (d : list Z) : Prop :=
  Z.of_nat (length d) = len s2 + 1
  /\ forall k, 0 <= k <= len s2 -> nth (Z.to_nat k) d 0 = table_cell s1 s2 i k.

(** [d] agrees with row [i] of the table in the columns before [j]. *)
Definition row_upto (s1 s2 : string_ref) (i j : Z) (d : list Z) : Prop :=
  Z.of_nat (length d) = len s2 + 1
  /\ forall k, 0 <= k < j -> nth (Z.to_nat k) d 0 = table_cell s1 s2 i k.

(** The same view over the object with every character lowered. *)
Definition lowered (v : string_ref) : string_ref :=
  mk_string_ref
    (match ps v with
     | Null => Null
     | Ptr b o => Ptr (map tolower b) o
     end)
    (len v).

(** * Properties *)

(** ** Machine integers *)

Lemma wrap_small z : in_range z -> wrap z = z.
Proof. intros H. apply Z.mod_small. exact H. Qed.

Lemma wrap_in_range z : in_range (wrap z).
Proof. apply Z.mod_pos_bound. reflexivity. Qed.

Lemma modulus_eq : modulus = 18446744073709551616.
Proof. reflexivity. Qed.

Lemma ptrdiff_max_eq : ptrdiff_max = 9223372036854775807.
Proof. reflexivity. Qed.

Ltac size_t_arith :=
  unfold in_range in *; rewrite ?modulus_eq, ?ptrdiff_max_eq in *; lia.

(** ** Outcomes, pointers and views: basic facts *)

Lemma ptr_add_0 p : ptr_add p 0 = p.
Proof. destruct p; simpl; [reflexivity | now rewrite Z.add_0_r]. Qed.

Lemma ptr_ok_in_range p : ptr_ok p -> in_range (extent p).
Proof. destruct p; simpl; intros H; size_t_arith. Qed.

Lemma valid_in_range v : valid v -> in_range (len v).
Proof.
  intros [Hp Hl]. pose proof (ptr_ok_in_range _ Hp). size_t_arith.
Qed.

Lemma valid_len_bound v : valid v -> 0 <= len v <= ptrdiff_max.
Proof.
  intros [Hp Hl]. destruct (ps v); simpl in *; size_t_arith.
Qed.

Lemma npos_eq : npos = 18446744073709551615.
Proof. reflexivity. Qed.

Lemma chars_length v : valid v -> Z.of_nat (length (chars v)) = len v.
Proof.
  intros [Hp Hl]. unfold chars. destruct (ps v) as [|b o]; simpl in *.
  - lia.
  - rewrite length_firstn, length_skipn. lia.
Qed.

Lemma load_chars v : valid v -> load (ps v) (len v) = Val (chars v).
Proof.
  intros [Hp Hl]. unfold chars, load. destruct (ps v) as [|b o]; simpl in *.
  - replace (len v) with 0 by lia. reflexivity.
  - replace ((0 <=? o) && (0 <=? len v) && (o + len v <=? Z.of_nat (length b)))
      with true; [reflexivity|].
    symmetry. rewrite !andb_true_iff, !Z.leb_le. lia.
Qed.

(** A window of a valid view is a valid view, over the expected characters. *)
Lemma window_valid v lo n :
  valid v -> 0 <= lo -> 0 <= n -> lo + n <= len v ->
  valid (mk_string_ref (ptr_add (ps v) lo) n).
Proof.
  intros [Hp Hl] H1 H2 H3. unfold valid. simpl.
  destruct (ps v) as [|b o]; simpl in *; lia.
Qed.

Lemma window_chars v lo n :
  valid v -> 0 <= lo -> 0 <= n -> lo + n <= len v ->
  chars (mk_string_ref (ptr_add (ps v) lo) n) = range (chars v) lo (lo + n).
Proof.
  intros [Hp Hl] H1 H2 H3. unfold chars, range. simpl.
  destruct (ps v) as [|b o]; simpl in *.
  - now rewrite skipn_nil, firstn_nil.
  - rewrite skipn_firstn_comm, firstn_firstn, skipn_skipn.
    f_equal; [lia | f_equal; lia].
Qed.

Lemma lex_cmp_refl l : lex_cmp l l = 0.
Proof. induction l as [|x l IH]; simpl; [|rewrite Ascii.eqb_refl]; auto. Qed.

Lemma equals_refl v : valid v -> equals v v = Val true.
Proof.
  intros Hv. unfold equals, memCompare, memcmp. rewrite Z.eqb_refl.
  destruct (len v =? 0); [reflexivity|].
  rewrite (load_chars _ Hv). simpl. now rewrite lex_cmp_refl.
Qed.

(** ** Slicing *)

Lemma substr_unfold v start num :
  in_range start -> in_range (len v) ->
  substr v start num =
  mk_string_ref (ptr_add (ps v) (Z.min start (len v)))
    (Z.min num (len v - Z.min start (len v))).
Proof.
  intros Hs Hl. unfold substr. rewrite wrap_small; [reflexivity|size_t_arith].
Qed.

Lemma slice_unfold v start stop :
  in_range start -> in_range stop -> in_range (len v) ->
  slice v start stop =
  mk_string_ref (ptr_add (ps v) (Z.min (Z.min start stop) (len v)))
    (Z.min (Z.max start stop) (len v) - Z.min (Z.min start stop) (len v)).
Proof.
  intros Hs He Hl. unfold slice.
  rewrite Z.gtb_ltb. destruct (Z.ltb_spec stop start) as [E|E].
  - rewrite wrap_small by size_t_arith. f_equal; [f_equal|]; lia.
  - rewrite wrap_small by size_t_arith. f_equal; [f_equal|]; lia.
Qed.

Lemma slice_valid_chars v start stop :
  in_range start -> in_range stop -> valid v ->
  valid (slice v start stop)
  /\ chars (slice v start stop)
     = range (chars v) (Z.min (Z.min start stop) (len v))
         (Z.min (Z.max start stop) (len v)).
Proof.
  intros Hs He Hv. pose proof (valid_in_range _ Hv) as Hl.
  rewrite slice_unfold by assumption.
  set (lo := Z.min (Z.min start stop) (len v)).
  set (hi := Z.min (Z.max start stop) (len v)).
  assert (0 <= lo <= hi /\ hi <= len v)
    by (unfold lo, hi, in_range in *; lia).
  split.
  - apply window_valid; trivial; lia.
  - replace hi with (lo + (hi - lo)) at 2 by lia.
    apply window_chars; trivial; lia.
Qed.

(** C7: [slice(start, end)] orders its two arguments, clamps both into
    [0, length] and returns the view over that range: the result starts
    at [lo = min(min(start, end), length)] and has [hi - lo] characters for
    [hi = min(max(start, end), length)], which for a valid view are the
    characters of the original at positions [lo .. hi - 1].  Hence
    [slice(start, end)] and [slice(end, start)] are the same view, and
    [slice(i, i)] is empty for every [i] (so for every [i <= length]). *)
Theorem slice_orders_and_clamps (v : string_ref) (start stop : Z) :
  in_range start -> in_range stop -> in_range (len v) ->
  let lo := Z.min (Z.min start stop) (len v) in
  let hi := Z.min (Z.max start stop) (len v) in
  slice v start stop = mk_string_ref (ptr_add (ps v) lo) (hi - lo)
  /\ 0 <= lo <= hi /\ hi <= len v
  /\ (valid v ->
      valid (slice v start stop)
      /\ chars (slice v start stop) = range (chars v) lo hi)
  /\ slice v start stop = slice v stop start
  /\ empty (slice v start start) = true.
Proof.
  intros Hs He Hl lo hi.
  assert (Hlo : 0 <= lo <= hi /\ hi <= len v) by (unfold in_range in *; lia).
  split; [now apply slice_unfold|]. split; [tauto|]. split; [tauto|].
  split; [|split].
  - intros Hv. now apply slice_valid_chars.
  - rewrite !slice_unfold by assumption. f_equal; [f_equal|]; lia.
  - rewrite slice_unfold by assumption. unfold empty. simpl.
    apply Z.eqb_eq. lia.
Qed.

Lemma slice_orders_and_clamps_witness :
  (in_range 6 /\ in_range 2 /\ valid (std "abcdefgh"))
  /\ slice (std "abcdefgh") 6 2 = slice (std "abcdefgh") 2 6
  /\ chars (slice (std "abcdefgh") 6 2) = list_ascii_of_string "cdef".
Proof.
  assert (H6 : in_range 6) by size_t_arith.
  assert (H2 : in_range 2) by size_t_arith.
  assert (Hv : valid (std "abcdefgh")) by (unfold valid; simpl; size_t_arith).
  destruct (slice_orders_and_clamps (std "abcdefgh") 6 2 H6 H2
              (valid_in_range _ Hv)) as (_ & _ & _ & Hc & Hsym & _).
  split; [auto|]. split; [exact Hsym|].
  destruct (Hc Hv) as [_ ->]. reflexivity.
Defined.

(** C8: [substr(start, count)] clamps [start] to the length and returns the
    view of the characters at positions [start .. start + count - 1] that
    exist, that is up to the length; [count] defaults to [capacity]
    ("unbounded").  Hence [substr(0)] is the original view, and it
    [equals] it; and [View("abc").substr(2, 4)] is ["c"]. *)
Theorem substr_clamps (v : string_ref) (start num : Z) :
  in_range start -> in_range num -> in_range (len v) ->
  let s := Z.min start (len v) in
  let e := Z.min (s + num) (len v) in
  substr v start num = mk_string_ref (ptr_add (ps v) s) (e - s)
  /\ (valid v ->
      valid (substr v start num)
      /\ chars (substr v start num) = range (chars v) s e)
  /\ substr v 0 capacity = v
  /\ (valid v -> equals (substr v 0 capacity) v = Val true)
  /\ (x <- View "abc" ;; Val (chars (substr x 2 4)))
     = Val (list_ascii_of_string "c").
Proof.
  intros Hs Hn Hl s e.
  assert (Heq : substr v start num = mk_string_ref (ptr_add (ps v) s) (e - s)).
  { rewrite substr_unfold by assumption. fold s. f_equal.
    unfold e, s, in_range in *. lia. }
  assert (Hid : substr v 0 capacity = v).
  { rewrite substr_unfold by (trivial; size_t_arith).
    unfold capacity. rewrite npos_eq.
    replace (Z.min 0 (len v)) with 0 by size_t_arith.
    rewrite ptr_add_0, Z.sub_0_r.
    replace (Z.min _ (len v)) with (len v) by size_t_arith.
    now destruct v. }
  split; [exact Heq|]. split; [|split; [exact Hid|split]].
  - intros Hv. rewrite Heq.
    assert (0 <= s <= e /\ e <= len v) by (unfold e, s, in_range in *; lia).
    split.
    + apply window_valid; trivial; lia.
    + replace e with (s + (e - s)) at 2 by lia.
      apply window_chars; trivial; lia.
  - intros Hv. rewrite Hid. now apply equals_refl.
  - reflexivity.
Qed.

Lemma substr_clamps_witness :
  (in_range 2 /\ in_range 100 /\ valid (std "abcdefgh"))
  /\ chars (substr (std "abcdefgh") 2 100) = list_ascii_of_string "cdefgh"
  /\ equals (substr (std "abcdefgh") 0 capacity) (std "abcdefgh") = Val true.
Proof.
  assert (H2 : in_range 2) by size_t_arith.
  assert (H100 : in_range 100) by size_t_arith.
  assert (Hv : valid (std "abcdefgh")) by (unfold valid; simpl; size_t_arith).
  destruct (substr_clamps (std "abcdefgh") 2 100 H2 H100
              (valid_in_range _ Hv)) as (_ & Hc & _ & He & _).
  split; [auto|]. split; [|exact (He Hv)].
  destruct (Hc Hv) as [_ ->]. reflexivity.
Defined.

(** C9: [drop_front(0)] and [drop_back(0)] return the view itself; for
    [n <= length] they return the view without its first, respectively
    last, [n] characters; for [n > length] the assertion fails, where
    [substr], [take_front] and [take_back] clamp and return a view. *)
Theorem drop_exact_or_abort (v : string_ref) (n : Z) :
  in_range n -> in_range (len v) ->
  drop_front v 0 = Val v
  /\ drop_back v 0 = Val v
  /\ (n <= len v ->
      drop_front v n = Val (mk_string_ref (ptr_add (ps v) n) (len v - n))
      /\ drop_back v n = Val (mk_string_ref (ps v) (len v - n))
      /\ (valid v ->
          forall f b, drop_front v n = Val f -> drop_back v n = Val b ->
          valid f /\ valid b
          /\ chars f = skipn (Z.to_nat n) (chars v)
          /\ chars b = firstn (Z.to_nat (len v - n)) (chars v)))
  /\ (n > len v ->
      drop_front v n = Abort
      /\ drop_back v n = Abort
      /\ substr v n capacity = mk_string_ref (ptr_add (ps v) (len v)) 0
      /\ take_front v n = mk_string_ref (ps v) (len v)
      /\ take_back v n = Val v).
Proof.
  intros Hn Hl.
  assert (Hfront : forall k, 0 <= k <= len v ->
            drop_front v k = Val (mk_string_ref (ptr_add (ps v) k) (len v - k))).
  { intros k Hk. unfold drop_front, assert.
    replace (k <=? len v) with true by (symmetry; apply Z.leb_le; lia).
    simpl. rewrite substr_unfold by size_t_arith.
    unfold capacity. rewrite npos_eq.
    replace (Z.min k (len v)) with k by lia.
    replace (Z.min _ (len v - k)) with (len v - k) by size_t_arith.
    reflexivity. }
  assert (Hback : forall k, 0 <= k <= len v ->
            drop_back v k = Val (mk_string_ref (ps v) (len v - k))).
  { intros k Hk. unfold drop_back, assert.
    replace (k <=? len v) with true by (symmetry; apply Z.leb_le; lia).
    simpl. rewrite (wrap_small (len v - k)) by size_t_arith.
    rewrite substr_unfold by size_t_arith.
    replace (Z.min 0 (len v)) with 0 by size_t_arith.
    rewrite ptr_add_0, Z.sub_0_r.
    replace (Z.min (len v - k) (len v)) with (len v - k) by lia.
    reflexivity. }
  split; [|split; [|split]].
  - rewrite Hfront by size_t_arith. rewrite ptr_add_0, Z.sub_0_r. now destruct v.
  - rewrite Hback by size_t_arith. rewrite Z.sub_0_r. now destruct v.
  - intros Hle. rewrite Hfront, Hback by size_t_arith.
    split; [reflexivity|]. split; [reflexivity|].
    intros Hv f b [= <-] [= <-].
    assert (H0 : 0 <= n) by size_t_arith.
    split; [apply window_valid; trivial; lia|].
    split; [rewrite <- (ptr_add_0 (ps v)); apply window_valid; trivial; lia|].
    split.
    + rewrite window_chars by (trivial; lia). unfold range.
      apply firstn_all2. rewrite length_skipn.
      pose proof (chars_length v Hv). lia.
    + rewrite <- (ptr_add_0 (ps v)). rewrite window_chars by (trivial; lia).
      unfold range. simpl. now rewrite Z.sub_0_r.
  - intros Hgt. unfold drop_front, drop_back, take_back, take_front, assert.
    replace (n <=? len v) with false by (symmetry; apply Z.leb_gt; lia).
    simpl. repeat split; trivial.
    + rewrite substr_unfold by size_t_arith.
      replace (Z.min n (len v)) with (len v) by lia.
      rewrite Z.sub_diag. reflexivity.
    + f_equal. lia.
Qed.

Lemma drop_exact_or_abort_witness :
  (in_range 2 /\ valid (std "abcdefgh"))
  /\ (f <- drop_front (std "abcdefgh") 2 ;;
      b <- drop_back (std "abcdefgh") 2 ;;
      Val (chars f, chars b))
     = Val (list_ascii_of_string "cdefgh", list_ascii_of_string "abcdef")
  /\ drop_front (std "abcdefgh") 9 = Abort.
Proof.
  assert (H2 : in_range 2) by size_t_arith.
  assert (H9 : in_range 9) by size_t_arith.
  assert (Hv : valid (std "abcdefgh")) by (unfold valid; simpl; size_t_arith).
  destruct (drop_exact_or_abort (std "abcdefgh") 2 H2 (valid_in_range _ Hv))
    as (_ & _ & Hin & _).
  destruct (drop_exact_or_abort (std "abcdefgh") 9 H9 (valid_in_range _ Hv))
    as (_ & _ & _ & Hout).
  split; [auto|]. split.
  - destruct Hin as (-> & -> & _); [simpl; lia|]. reflexivity.
  - apply Hout. simpl. lia.
Defined.

(** C10: [string_ref(const char *str)] accepts a pointer that is null at run
    time and builds the view [(nullptr, 0)]; nothing is rejected.
    [withNullAsEmpty] on a null pointer builds a view of the literal [""].
    Both views have length 0, both are [empty()], and they are [equals]. *)
Theorem cstr_constructor_accepts_null :
  string_ref_cstr Null = Val (mk_string_ref Null 0)
  /\ withNullAsEmpty Null = Val (mk_string_ref (lit "") 0)
  /\ (a <- string_ref_cstr Null ;;
      b <- withNullAsEmpty Null ;;
      e <- equals a b ;;
      Val (len a, len b, empty a, empty b, e))
     = Val (0, 0, true, true, true).
Proof. repeat split. Qed.

(** ** Comparison *)

Lemma uchar_inj x y : uchar x = uchar y -> x = y.
Proof.
  unfold uchar. intros H. apply N2Z.inj in H.
  rewrite <- (ascii_N_embedding x), <- (ascii_N_embedding y). now rewrite H.
Qed.

Lemma chars_firstn v n :
  valid v -> 0 <= n <= len v ->
  load (ps v) n = Val (firstn (Z.to_nat n) (chars v)).
Proof.
  intros [Hp Hl] Hn. unfold chars, load. destruct (ps v) as [|b o]; simpl in *.
  - replace n with 0 by lia. reflexivity.
  - replace ((0 <=? o) && (0 <=? n) && (o + n <=? Z.of_nat (length b)))
      with true by (symmetry; rewrite !andb_true_iff, !Z.leb_le; lia).
    rewrite firstn_firstn. do 2 f_equal. lia.
Qed.

Lemma memCompare_chars a b n :
  valid a -> valid b -> 0 <= n <= len a -> n <= len b ->
  memCompare (ps a) (ps b) n
  = Val (lex_cmp (firstn (Z.to_nat n) (chars a)) (firstn (Z.to_nat n) (chars b))).
Proof.
  intros Ha Hb Hna Hnb. unfold memCompare, memcmp.
  destruct (Z.eqb_spec n 0) as [->|Hne]; [reflexivity|].
  rewrite !chars_firstn by (trivial; lia). reflexivity.
Qed.

Lemma lex_cmp_lexico l r :
  let n := Nat.min (length l) (length r) in
  three_way (lex_cmp (firstn n l) (firstn n r))
    (Z.of_nat (length l)) (Z.of_nat (length r))
  = lexico l r.
Proof.
  revert r. induction l as [|x l IH]; intros [|y r]; try reflexivity.
  specialize (IH r). cbn -[Z.of_nat three_way] in *.
  destruct (Ascii.eqb_spec x y) as [->|Hxy].
  - rewrite !Z.ltb_irrefl. rewrite <- IH. unfold three_way.
    rewrite !Nat2Z.inj_succ.
    destruct (lex_cmp _ _ =? 0); simpl; [|reflexivity].
    destruct (Z.eqb_spec (Z.of_nat (length l)) (Z.of_nat (length r)));
      destruct (Z.eqb_spec (Z.succ (Z.of_nat (length l)))
                  (Z.succ (Z.of_nat (length r)))); try lia; trivial.
    destruct (Z.ltb_spec (Z.of_nat (length l)) (Z.of_nat (length r)));
      destruct (Z.ltb_spec (Z.succ (Z.of_nat (length l)))
                  (Z.succ (Z.of_nat (length r)))); try lia; trivial.
  - assert (uchar x <> uchar y) by (intros E; now apply uchar_inj in E).
    unfold three_way.
    destruct (Z.eqb_spec (uchar x - uchar y) 0); [lia|]. simpl.
    destruct (Z.ltb_spec (uchar x - uchar y) 0);
      destruct (Z.ltb_spec (uchar x) (uchar y)); try lia; trivial.
    destruct (Z.ltb_spec (uchar y) (uchar x)); [reflexivity|lia].
Qed.

Lemma compare_lexico a b :
  valid a -> valid b -> compare a b = Val (lexico (chars a) (chars b)).
Proof.
  intros Ha Hb.
  pose proof (valid_in_range _ Ha). pose proof (valid_in_range _ Hb).
  pose proof (chars_length _ Ha) as La. pose proof (chars_length _ Hb) as Lb.
  unfold compare.
  rewrite memCompare_chars by (trivial; unfold in_range in *; lia).
  simpl. rewrite <- lex_cmp_lexico. unfold three_way.
  rewrite La, Lb.
  replace (Z.to_nat (Z.min (len a) (len b)))
    with (Nat.min (length (chars a)) (length (chars b))) by lia.
  destruct (negb _); [reflexivity|].
  destruct (len a =? len b); reflexivity.
Qed.

Lemma lex_cmp_zero l r :
  length l = length r -> (lex_cmp l r = 0 <-> l = r).
Proof.
  revert r. induction l as [|x l IH]; intros [|y r] Hlen; simpl in *;
    try discriminate; [tauto|].
  injection Hlen as Hlen. specialize (IH r Hlen).
  destruct (Ascii.eqb_spec x y) as [->|Hxy].
  - rewrite IH. split; [now intros ->|now intros [= ->]].
  - split; [|intros [= ? ?]; contradiction].
    intros E. exfalso. apply Hxy, uchar_inj. lia.
Qed.

Lemma equals_chars a b :
  valid a -> valid b ->
  exists e, equals a b = Val e /\ (e = true <-> chars a = chars b).
Proof.
  intros Ha Hb.
  pose proof (valid_in_range _ Ha). pose proof (valid_in_range _ Hb).
  pose proof (chars_length _ Ha) as La. pose proof (chars_length _ Hb) as Lb.
  unfold equals. destruct (Z.eqb_spec (len a) (len b)) as [E|E].
  - rewrite memCompare_chars by (trivial; unfold in_range in *; lia).
    simpl. eexists. split; [reflexivity|].
    rewrite !firstn_all2 by lia.
    rewrite Z.eqb_eq. apply lex_cmp_zero. lia.
  - exists false. split; [reflexivity|].
    split; [discriminate|]. intros Hc. rewrite Hc in La. lia.
Qed.

Lemma lexico_range l r : lexico l r = -1 \/ lexico l r = 0 \/ lexico l r = 1.
Proof.
  revert r. induction l as [|x l IH]; intros [|y r]; simpl; auto.
  destruct (uchar x <? uchar y); auto. destruct (uchar y <? uchar x); auto.
Qed.

Lemma lexico_zero l r : lexico l r = 0 <-> l = r.
Proof.
  revert r. induction l as [|x l IH]; intros [|y r]; simpl;
    try (split; [lia|discriminate]); [tauto|].
  destruct (Z.ltb_spec (uchar x) (uchar y));
    [split; [lia|intros [= -> _]; lia]|].
  destruct (Z.ltb_spec (uchar y) (uchar x));
    [split; [lia|intros [= -> _]; lia]|].
  assert (x = y) as -> by (apply uchar_inj; lia).
  rewrite IH. split; [now intros ->|now intros [= ->]].
Qed.

Lemma lexico_flip l r : lexico r l = - lexico l r.
Proof.
  revert r. induction l as [|x l IH]; intros [|y r]; simpl; trivial.
  destruct (Z.ltb_spec (uchar x) (uchar y));
    destruct (Z.ltb_spec (uchar y) (uchar x)); try lia; trivial.
Qed.

Lemma lexico_trans l m r :
  lexico l m <= 0 -> lexico m r <= 0 -> lexico l r <= 0.
Proof.
  revert m r. induction l as [|x l IH]; intros [|y m] [|z r]; simpl;
    try lia.
  destruct (Z.ltb_spec (uchar x) (uchar y));
    destruct (Z.ltb_spec (uchar y) (uchar x));
    destruct (Z.ltb_spec (uchar y) (uchar z));
    destruct (Z.ltb_spec (uchar z) (uchar y));
    destruct (Z.ltb_spec (uchar x) (uchar z));
    destruct (Z.ltb_spec (uchar z) (uchar x)); try lia.
  apply IH.
Qed.

Lemma op_le_lexico a b :
  valid a -> valid b ->
  (op_le a b = Val true <-> lexico (chars a) (chars b) <= 0).
Proof.
  intros Ha Hb. unfold op_le. rewrite compare_lexico by assumption. simpl.
  split.
  - intros [= E]. now apply Z.leb_le.
  - intros E. f_equal. now apply Z.leb_le.
Qed.

Lemma lexico_trans_strict l m r :
  lexico l m < 0 -> lexico m r < 0 -> lexico l r < 0.
Proof.
  intros H1 H2.
  assert (H : lexico l r <= 0) by (apply lexico_trans with m; lia).
  destruct (Z.eq_dec (lexico l r) 0) as [E|E]; [|lia].
  apply lexico_zero in E. subst r.
  rewrite (lexico_flip l m) in H2. lia.
Qed.

Lemma op_lt_lexico a b :
  valid a -> valid b ->
  (op_lt a b = Val true <-> lexico (chars a) (chars b) < 0).
Proof.
  intros Ha Hb. unfold op_lt. rewrite compare_lexico by assumption. simpl.
  split.
  - intros [= E]. now apply Z.ltb_lt.
  - intros E. f_equal. now apply Z.ltb_lt.
Qed.

Ltac by_cases_on_sign :=
  simpl; repeat split; intros; try discriminate; try reflexivity; try lia;
  try (left; reflexivity); try (right; reflexivity);
  try match goal with H : _ \/ _ |- _ => destruct H; discriminate end.

(** C6: on valid views [compare] returns -1, 0 or 1; [a.compare(b) == 0],
    [a.equals(b)] and [a == b] hold together, exactly when the two views
    hold the same characters; [<=] is antisymmetric, transitive and total;
    and the six operators agree with [compare]: [<] is "-1", [>] is "1",
    [<=] is "[<] or [==]", [>=] and [>] are [<=] and [<] with the arguments
    exchanged, [!=] is the negation of [==], and [compare] exchanges sign
    with its arguments. *)
Theorem compare_is_total_order (a b c : string_ref) :
  valid a -> valid b -> valid c ->
  (exists r, compare a b = Val r /\ (r = -1 \/ r = 0 \/ r = 1)
             /\ compare b a = Val (- r))
  /\ (compare a b = Val 0 <-> equals a b = Val true)
  /\ (equals a b = Val true <-> op_eq a b = Val true)
  /\ (equals a b = Val true <-> chars a = chars b)
  /\ (op_le a b = Val true -> op_le b a = Val true -> op_eq a b = Val true)
  /\ (op_le a b = Val true -> op_le b c = Val true -> op_le a c = Val true)
  /\ (op_lt a b = Val true -> op_lt b c = Val true -> op_lt a c = Val true)
  /\ (op_le a b = Val true \/ op_le b a = Val true)
  /\ (op_lt a b = Val true <-> compare a b = Val (-1))
  /\ (op_gt a b = Val true <-> compare a b = Val 1)
  /\ (op_le a b = Val true <-> op_lt a b = Val true \/ op_eq a b = Val true)
  /\ (op_ge a b = Val true <-> op_le b a = Val true)
  /\ (op_gt a b = Val true <-> op_lt b a = Val true)
  /\ (op_ne a b = Val true <-> op_eq a b = Val false)
  /\ (op_lt a b = Val true <-> op_ge a b = Val false).
Proof.
  intros Ha Hb Hc.
  assert (Htrans : op_le a b = Val true -> op_le b c = Val true ->
                   op_le a c = Val true).
  { rewrite !op_le_lexico by assumption. apply lexico_trans. }
  destruct (equals_chars a b Ha Hb) as (e & He & Hchars).
  assert (Hz : e = true <-> lexico (chars a) (chars b) = 0)
    by (rewrite lexico_zero; exact Hchars).
  assert (Heq : equals a b = Val true <-> chars a = chars b).
  { rewrite He, <- Hchars. split; [now intros [= ->]|now intros ->]. }
  assert (Hstrict : op_lt a b = Val true -> op_lt b c = Val true ->
                    op_lt a c = Val true).
  { rewrite !op_lt_lexico by assumption. apply lexico_trans_strict. }
  split; [|split; [|split; [|split; [exact Heq|split; [|split;
    [exact Htrans|split; [exact Hstrict|]]]]]]].
  - exists (lexico (chars a) (chars b)).
    rewrite !compare_lexico by assumption.
    split; [reflexivity|]. split; [apply lexico_range|].
    now rewrite lexico_flip.
  - rewrite compare_lexico, He by assumption. split.
    + intros [= E]. f_equal. now apply Hz.
    + intros [= E]. f_equal. now apply Hz.
  - reflexivity.
  - rewrite !op_le_lexico by assumption. unfold op_eq. rewrite He.
    rewrite (lexico_flip (chars a) (chars b)). intros H1 H2.
    f_equal. apply Hz. lia.
  - unfold op_le, op_lt, op_gt, op_ge, op_ne, op_eq.
    rewrite He, !compare_lexico by assumption.
    rewrite (lexico_flip (chars a) (chars b)).
    destruct (lexico_range (chars a) (chars b)) as [E|[E|E]].
    + assert (e = false) as ->
        by (destruct e; trivial; destruct Hz as [Hz _]; specialize (Hz eq_refl); lia).
      rewrite E. by_cases_on_sign.
    + assert (e = true) as -> by (now apply Hz).
      rewrite E. by_cases_on_sign.
    + assert (e = false) as ->
        by (destruct e; trivial; destruct Hz as [Hz _]; specialize (Hz eq_refl); lia).
      rewrite E. by_cases_on_sign.
Qed.

Lemma compare_is_total_order_witness :
  (valid (std "abc") /\ valid (std "abd") /\ valid (std "abdc"))
  /\ op_le (std "abc") (std "abd") = Val true
  /\ op_le (std "abd") (std "abdc") = Val true
  /\ op_le (std "abc") (std "abdc") = Val true
  /\ (op_lt (std "abc") (std "abd") = Val true
      <-> compare (std "abc") (std "abd") = Val (-1)).
Proof.
  assert (Ha : valid (std "abc")) by (unfold valid; simpl; size_t_arith).
  assert (Hb : valid (std "abd")) by (unfold valid; simpl; size_t_arith).
  assert (Hc : valid (std "abdc")) by (unfold valid; simpl; size_t_arith).
  destruct (compare_is_total_order _ _ _ Ha Hb Hc)
    as (_ & _ & _ & _ & _ & Htrans & _ & _ & Hlt & _).
  split; [auto|].
  split; [reflexivity|]. split; [reflexivity|].
  split; [apply Htrans; reflexivity | exact Hlt].
Defined.

(** ** Counting occurrences *)

Lemma count_str_loop_counts v pattern :
  valid v -> valid pattern -> len pattern <= len v ->
  forall n i count,
    0 <= i -> i + Z.of_nat n = len v - len pattern + 1 ->
    0 <= count <= i ->
    count_str_loop v pattern n i count
    = Val (count
           + Z.of_nat (length (filter (matches_at (chars pattern) (chars v))
                                 (seq (Z.to_nat i) n)))).
Proof.
  intros Hv Hp Hle.
  pose proof (valid_len_bound _ Hv) as Bv.
  pose proof (valid_len_bound _ Hp) as Bp.
  pose proof (chars_length _ Hp) as Lp.
  induction n as [|n IH]; intros i count Hi Hn Hc.
  - simpl. f_equal. lia.
  - cbn [count_str_loop seq filter].
    assert (Hsub : substr v i (len pattern)
                   = mk_string_ref (ptr_add (ps v) i) (len pattern)).
    { rewrite substr_unfold by size_t_arith.
      replace (Z.min i (len v)) with i by lia.
      replace (Z.min (len pattern) (len v - i)) with (len pattern) by lia.
      reflexivity. }
    assert (Hw : valid (substr v i (len pattern)))
      by (rewrite Hsub; apply window_valid; trivial; lia).
    destruct (equals_chars _ _ Hw Hp) as (e & -> & He).
    rewrite Hsub, window_chars in He by (trivial; lia).
    cbn [bind].
    rewrite (wrap_small (i + 1)) by size_t_arith.
    rewrite IH by (destruct e; try rewrite wrap_small by size_t_arith; lia).
    replace (Z.to_nat (i + 1)) with (S (Z.to_nat i)) by lia.
    f_equal. unfold matches_at at 2.
    replace (firstn (length (chars pattern)) (skipn (Z.to_nat i) (chars v)))
      with (range (chars v) i (i + len pattern))
      by (unfold range; do 2 f_equal; lia).
    destruct (list_eq_dec ascii_dec _ _) as [E|E].
    + assert (e = true) as -> by (now apply He).
      rewrite wrap_small by size_t_arith. cbn [length]. lia.
    + assert (e = false) as -> by (destruct e; trivial; now destruct E; apply He).
      lia.
Qed.

(** C5: for a pattern not longer than the view, [count_str] returns the
    number of start positions [0 <= i <= length(view) - length(pattern)]
    at which the pattern matches exactly.  Overlapping occurrences count:
    ["aa"] occurs twice in ["aaa"], and ["ab"] twice in ["abcab"]. *)
Theorem count_str_counts_every_position (v pattern : string_ref) :
  valid v -> valid pattern -> len pattern <= len v ->
  count_str v pattern
  = Val (Z.of_nat (occurrences (chars pattern) (chars v)))
  /\ (a <- View "aaa" ;; p <- View "aa" ;; count_str a p) = Val 2
  /\ (a <- View "abcab" ;; p <- View "ab" ;; count_str a p) = Val 2.
Proof.
  intros Hv Hp Hle. split; [|split; reflexivity].
  pose proof (valid_len_bound _ Hv) as Bv.
  pose proof (valid_len_bound _ Hp) as Bp.
  unfold count_str.
  replace (len pattern >? len v) with false
    by (symmetry; rewrite Z.gtb_ltb; apply Z.ltb_ge; lia).
  rewrite (wrap_small (len v - len pattern)) by size_t_arith.
  rewrite (wrap_small (len v - len pattern + 1)) by size_t_arith.
  rewrite Z.sub_0_r.
  rewrite (wrap_small (len v - len pattern + 1)) by size_t_arith.
  rewrite (count_str_loop_counts v pattern Hv Hp Hle) by lia.
  unfold occurrences. simpl (Z.to_nat 0).
  pose proof (chars_length _ Hv). pose proof (chars_length _ Hp).
  rewrite Z.add_0_l.
  replace (Z.to_nat (len v - len pattern + 1))
    with (length (chars v) - length (chars pattern) + 1)%nat by lia.
  reflexivity.
Qed.

Lemma count_str_counts_every_position_witness :
  (valid (std "aaaa") /\ valid (std "aa")
   /\ len (std "aa") <= len (std "aaaa"))
  /\ count_str (std "aaaa") (std "aa") = Val 3.
Proof.
  assert (Hv : valid (std "aaaa")) by (unfold valid; simpl; size_t_arith).
  assert (Hp : valid (std "aa")) by (unfold valid; simpl; size_t_arith).
  assert (Hle : len (std "aa") <= len (std "aaaa")) by (simpl; lia).
  destruct (count_str_counts_every_position _ _ Hv Hp Hle) as [H _].
  split; [auto|]. rewrite H. reflexivity.
Defined.

(** ** Reading the characters of a view *)

Lemma read_chars v i :
  valid v -> 0 <= i < len v ->
  exists x, nth_error (chars v) (Z.to_nat i) = Some x /\ read (ps v) i = Val x.
Proof.
  intros [Hp Hl] Hi. unfold chars, read.
  destruct (ps v) as [|b o]; simpl in *; [lia|].
  replace ((0 <=? o + i) && (o + i <? Z.of_nat (length b))) with true
    by (symmetry; rewrite andb_true_iff, Z.leb_le, Z.ltb_lt; lia).
  rewrite nth_error_firstn, nth_error_skipn.
  replace (Z.to_nat i <? Z.to_nat (len v))%nat with true
    by (symmetry; apply Nat.ltb_lt; lia).
  replace (Z.to_nat o + Z.to_nat i)%nat with (Z.to_nat (o + i)) by lia.
  destruct (nth_error b (Z.to_nat (o + i))) as [x|] eqn:E.
  - now exists x.
  - apply nth_error_None in E. lia.
Qed.

Lemma read_in_object p i x :
  ptr_ok p -> read p i = Val x -> i < extent p /\ extent p <= ptrdiff_max.
Proof.
  destruct p as [|b o]; simpl; [discriminate|]. intros Hp.
  destruct ((0 <=? o + i) && (o + i <? Z.of_nat (length b))) eqn:E;
    [|discriminate].
  apply andb_true_iff in E. rewrite Z.leb_le, Z.ltb_lt in E. lia.
Qed.

(** ** Backward search for a character *)

Lemma rfind_char_loop_more_fuel fuel k p c i r :
  rfind_char_loop fuel p c i = Some r ->
  rfind_char_loop (fuel + k) p c i = Some r.
Proof.
  revert i. induction fuel as [|fuel IH]; intros i; simpl; [discriminate|].
  destruct (i >=? 0); trivial. destruct (read p i); trivial.
  destruct (Ascii.eqb c a); trivial. apply IH.
Qed.

(** Whatever index the loop returns was read, and held the character. *)
Lemma rfind_char_loop_returns fuel p c i r :
  in_range i ->
  rfind_char_loop fuel p c i = Some (Val r) -> read p r = Val c.
Proof.
  revert i. induction fuel as [|fuel IH]; intros i Hi; simpl; [discriminate|].
  replace (i >=? 0) with true
    by (symmetry; rewrite Z.geb_leb; apply Z.leb_le; size_t_arith).
  destruct (read p i) as [x| |] eqn:E; try discriminate.
  destruct (Ascii.eqb_spec c x) as [->|Hne].
  - now intros [= <-].
  - apply IH, wrap_in_range.
Qed.

(** The loop cannot return [npos]: the "not found" exit of the source is
    dead code, since [i >= 0] holds for every unsigned [i]. *)
Lemma rfind_char_never_npos fuel v c rstart :
  ptr_ok (ps v) -> in_range rstart ->
  rfind_char fuel v c rstart <> Some (Val npos).
Proof.
  intros Hp Hr H. unfold rfind_char in H.
  apply rfind_char_loop_returns in H.
  - apply read_in_object in H; trivial. rewrite npos_eq in H. size_t_arith.
  - pose proof (wrap_in_range (len v - 1)). size_t_arith.
Qed.

(** From index [i] of a valid view down to the last occurrence [j]. *)
Lemma rfind_char_loop_hit v c j :
  valid v -> 0 <= j < len v ->
  nth_error (chars v) (Z.to_nat j) = Some c ->
  forall n i, i = j + Z.of_nat n -> i < len v ->
    (forall k, j < k <= i -> nth_error (chars v) (Z.to_nat k) <> Some c) ->
    forall fuel, (n < fuel)%nat ->
    rfind_char_loop fuel (ps v) c i = Some (Val j).
Proof.
  intros Hv Hj Hc. pose proof (valid_len_bound _ Hv) as B.
  induction n as [|n IH]; intros i Hi Hlt Hno fuel Hfuel;
    (destruct fuel as [|fuel]; [lia|]); simpl;
    (replace (i >=? 0) with true
      by (symmetry; rewrite Z.geb_leb; apply Z.leb_le; lia));
    destruct (read_chars v i Hv) as (x & Hx & ->); try lia.
  - replace i with j in * by lia. rewrite Hc in Hx. injection Hx as <-.
    now rewrite Ascii.eqb_refl.
  - destruct (Ascii.eqb_spec c x) as [->|Hne].
    + exfalso. apply (Hno i); [lia|exact Hx].
    + rewrite wrap_small by size_t_arith.
      apply IH; try lia. intros k Hk. apply Hno. lia.
Qed.

(** From index [i] down through index 0 without a hit: the decrement wraps
    around and the next read is far outside the object. *)
Lemma rfind_char_loop_miss v c :
  valid v ->
  forall n i, i = Z.of_nat n -> i < len v ->
    (forall k, 0 <= k <= i -> nth_error (chars v) (Z.to_nat k) <> Some c) ->
    forall fuel, (n + 1 < fuel)%nat ->
    rfind_char_loop fuel (ps v) c i = Some Undef.
Proof.
  intros Hv. pose proof (valid_len_bound _ Hv) as B.
  assert (Hout : read (ps v) (wrap (0 - 1)) = Undef).
  { destruct (read (ps v) (wrap (0 - 1))) as [x| |] eqn:E; trivial.
    - apply read_in_object in E; [|apply Hv].
      change (wrap (0 - 1)) with npos in E. rewrite npos_eq in E. size_t_arith.
    - destruct (ps v); simpl in E; [discriminate|].
      destruct (_ && _); [destruct (nth_error _ _)|]; discriminate. }
  induction n as [|n IH]; intros i Hi Hlt Hno fuel Hfuel;
    (destruct fuel as [|fuel]; [lia|]); cbn [rfind_char_loop];
    (replace (i >=? 0) with true
      by (symmetry; rewrite Z.geb_leb; apply Z.leb_le; lia));
    destruct (read_chars v i Hv) as (x & Hx & ->); try lia;
    (destruct (Ascii.eqb_spec c x) as [->|Hne];
     [exfalso; apply (Hno i); [lia|exact Hx]|]).
  - subst i. destruct fuel as [|fuel]; [lia|]. cbn [rfind_char_loop].
    change (Z.of_nat 0) with 0. rewrite Hout.
    now replace (wrap (0 - 1) >=? 0) with true by reflexivity.
  - rewrite wrap_small by size_t_arith.
    apply IH; try lia. intros k Hk. apply Hno. lia.
Qed.

(** On a non-empty valid view the search finds the last occurrence at or
    before [min(rstart, length - 1)], when there is one... *)
Lemma rfind_char_found v c rstart j :
  valid v -> 0 < len v -> in_range rstart ->
  let s := Z.min rstart (len v - 1) in
  0 <= j <= s ->
  nth_error (chars v) (Z.to_nat j) = Some c ->
  (forall k, j < k <= s -> nth_error (chars v) (Z.to_nat k) <> Some c) ->
  forall fuel, (Z.to_nat (s - j) < fuel)%nat ->
  rfind_char fuel v c rstart = Some (Val j).
Proof.
  intros Hv Hpos Hr s Hj Hc Hno fuel Hfuel.
  pose proof (valid_len_bound _ Hv) as B.
  unfold rfind_char. rewrite wrap_small by size_t_arith. fold s.
  apply (rfind_char_loop_hit v c j Hv) with (n := Z.to_nat (s - j));
    trivial; lia.
Qed.

(** ... and has undefined behaviour when there is none. *)
Lemma rfind_char_absent v c rstart :
  valid v -> 0 < len v -> in_range rstart ->
  let s := Z.min rstart (len v - 1) in
  (forall k, 0 <= k <= s -> nth_error (chars v) (Z.to_nat k) <> Some c) ->
  forall fuel, (Z.to_nat s + 1 < fuel)%nat ->
  rfind_char fuel v c rstart = Some Undef.
Proof.
  intros Hv Hpos Hr s Hno fuel Hfuel.
  pose proof (valid_len_bound _ Hv) as B.
  unfold rfind_char. rewrite wrap_small by size_t_arith. fold s.
  apply (rfind_char_loop_miss v c Hv) with (n := Z.to_nat s);
    trivial; unfold in_range in *; lia.
Qed.

Lemma rfind_if_loop_more_fuel fuel k p pred i r :
  rfind_if_loop fuel p pred i = Some r ->
  rfind_if_loop (fuel + k) p pred i = Some r.
Proof.
  revert i. induction fuel as [|fuel IH]; intros i; simpl; [discriminate|].
  destruct (i >=? 0); trivial. destruct (read p i); trivial.
  destruct (pred a); trivial. apply IH.
Qed.

(** C1: [rfind_char(c, rstart)] is to return the last index at or before
    [min(rstart, length - 1)] that holds [c], and [npos] when there is
    none, without underflow on an empty view.  The code does the first
    ([rfind_char_found]) but not the second: where the character does not
    occur the loop walks down to index 0, the decrement wraps to 2^64 - 1,
    and the next read is outside the object.  However much fuel the loop
    gets, it ends in undefined behaviour and never returns [npos]: for
    [View("abc")] and ['z'], for the default (null) view, and for
    [View("")] with [rstart = 0], where the first read is already at index
    [length].  [rfind_if] has the same loop. *)
Theorem rfind_char_absent_is_undefined :
  (forall k : nat,
      (v <- View "abc" ;; Val (rfind_char (5 + k) v "z" npos))
      = Val (Some Undef))
  /\ (forall fuel : nat,
      (v <- View "abc" ;; Val (rfind_char fuel v "z" npos))
      <> Val (Some (Val npos)))
  /\ (forall k : nat,
      rfind_char (1 + k) string_ref_default "z" npos = Some Undef)
  /\ (forall k : nat,
      (v <- View "" ;; Val (rfind_char (2 + k) v "z" 0)) = Val (Some Undef))
  /\ (forall k : nat,
      (v <- View "abc" ;; Val (rfind_if (5 + k) v (fun _ => false) npos))
      = Val (Some Undef)).
Proof.
  split; [|split; [|split; [|split]]]; try (intros k; reflexivity).
  intros fuel. change (View "abc") with (Val (mk_string_ref (lit "abc") 3)).
  cbn [bind]. intros [= H]. revert H. apply rfind_char_never_npos.
  - simpl. size_t_arith.
  - rewrite npos_eq. size_t_arith.
Qed.

(** ** Substring search *)

(** C2: the searches are to look at the characters at indices in
    [0, length) only, so that an index [i] returned by [find(pattern)]
    has [i + length(pattern) <= length].  [find_str] does not: it hands
    [ps] to [strstr], which reads up to the first terminator.  For the
    first two characters of ["abc"] and the pattern ["bc"] it returns
    index 1, a match that needs the character at index [length]:
    [1 + 2 > 2].  On a two-character array without terminator the search
    leaves the object, and a terminator inside the view hides the
    characters after it. *)
Theorem find_str_reads_past_length :
  (a <- View "abc" ;;
   p <- View "bc" ;;
   let v := take_front a 2 in
   r <- find_str v p ;;
   Val (string_of_list_ascii (chars v), len v, r, r + len p <=? len v))
  = Val ("ab"%string, 2, 1, false)
  /\ (a <- View "abc" ;;
      p <- View "bc" ;;
      contains_str (take_front a 2) p) = Val true
  /\ (p <- View "b" ;;
      find_str (string_ref_ptr_len (Ptr ["a"%char; "b"%char] 0) 2) p) = Undef
  /\ (p <- View "b" ;;
      find_str (string_ref_std ["a"%char; NUL; "b"%char]) p) = Val npos.
Proof. repeat split. Qed.

(** ** Splitting *)

(** C3: [split] and [rsplit] are to return the parts before and after the
    first, respectively last, occurrence of the separator, and (the whole
    view, an empty view) when it does not occur.  [rsplit] by a character
    that does not occur never returns that pair, because [rfind_char] has
    undefined behaviour there; [split] by a pattern splits the first four
    characters of ["abcdefabgh"] at ["de"], which starts inside the view
    and ends outside of it.  The documented example holds: [rsplit] of
    ["abcdefabgh"] by ["ab"] is (["abcdef"], ["gh"]). *)
Theorem rsplit_absent_char_is_undefined :
  (forall k : nat,
      (v <- View "abcdefabgh" ;; Val (rsplit (12 + k) v "z"))
      = Val (Some Undef))
  /\ (a <- View "abcdefabgh" ;;
      sep <- View "de" ;;
      let v := take_front a 4 in
      r <- split_str v sep ;;
      Val (string_of_list_ascii (chars v),
           string_of_list_ascii (chars (fst r)),
           string_of_list_ascii (chars (snd r))))
     = Val ("abcd"%string, "abc"%string, ""%string)
  /\ (v <- View "abcdefabgh" ;;
      sep <- View "ab" ;;
      r <- rsplit_str v sep ;;
      Val (string_of_list_ascii (chars (fst r)),
           string_of_list_ascii (chars (snd r))))
     = Val ("abcdef"%string, "gh"%string).
Proof. repeat split. Qed.

(** ** Levenshtein distance *)

Lemma levenshtein_nil_l t : levenshtein [] t = length t.
Proof. reflexivity. Qed.

Lemma levenshtein_nil_r s : levenshtein s [] = length s.
Proof. destruct s; reflexivity. Qed.

Lemma levenshtein_cons x y s t :
  levenshtein (x :: s) (y :: t)
  = Nat.min (levenshtein s t + (if Ascii.eqb x y then 0 else 1))
      (Nat.min (levenshtein s (y :: t) + 1) (levenshtein (x :: s) t + 1)).
Proof. reflexivity. Qed.

Lemma edits_refl s : edits s s 0.
Proof. induction s; constructor; assumption. Qed.

Lemma edits_all_inserted t : edits [] t (length t).
Proof. induction t; simpl; constructor; assumption. Qed.

Lemma edits_all_deleted s : edits s [] (length s).
Proof. induction s; simpl; constructor; assumption. Qed.

(** The recurrence is met by an alignment... *)
Lemma levenshtein_edits s t : edits s t (levenshtein s t).
Proof.
  revert t. induction s as [|x s IHs]; intros t.
  - apply edits_all_inserted.
  - induction t as [|y t IHt].
    + rewrite levenshtein_nil_r. apply edits_all_deleted.
    + rewrite levenshtein_cons.
      destruct (Nat.min_spec (levenshtein s t + (if Ascii.eqb x y then 0 else 1))
                  (Nat.min (levenshtein s (y :: t) + 1)
                     (levenshtein (x :: s) t + 1))) as [[_ ->]|[_ ->]].
      * destruct (Ascii.eqb_spec x y) as [->|_].
        -- rewrite Nat.add_0_r. apply edits_keep, IHs.
        -- rewrite Nat.add_1_r. apply edits_subst, IHs.
      * destruct (Nat.min_spec (levenshtein s (y :: t) + 1)
                    (levenshtein (x :: s) t + 1)) as [[_ ->]|[_ ->]];
          rewrite Nat.add_1_r.
        -- apply edits_delete, IHs.
        -- apply edits_insert, IHt.
Qed.

(** ... and no alignment is cheaper. *)
Lemma levenshtein_least s t n : edits s t n -> (levenshtein s t <= n)%nat.
Proof.
  induction 1 as [|x s t n _ IH|x y s t n _ IH|x s t n _ IH|y s t n _ IH].
  - simpl. lia.
  - rewrite levenshtein_cons, Ascii.eqb_refl. lia.
  - rewrite levenshtein_cons. destruct (Ascii.eqb x y); lia.
  - destruct t as [|y t].
    + rewrite levenshtein_nil_r in *. simpl. lia.
    + rewrite levenshtein_cons. lia.
  - destruct s as [|x s].
    + simpl in *. lia.
    + rewrite levenshtein_cons. lia.
Qed.

Lemma edits_sym s t n : edits s t n -> edits t s n.
Proof. induction 1; constructor; assumption. Qed.

Lemma levenshtein_sym s t : levenshtein s t = levenshtein t s.
Proof.
  apply Nat.le_antisymm; apply levenshtein_least, edits_sym, levenshtein_edits.
Qed.

Lemma levenshtein_refl s : levenshtein s s = 0%nat.
Proof.
  pose proof (levenshtein_least _ _ _ (edits_refl s)). lia.
Qed.

(** Alignments can be extended at the far end as well. *)
Lemma edits_snoc_keep x s t n : edits s t n -> edits (s ++ [x]) (t ++ [x]) n.
Proof.
  induction 1; simpl; try (constructor; assumption).
  apply edits_keep, edits_nil.
Qed.

Lemma edits_snoc_subst x y s t n :
  edits s t n -> edits (s ++ [x]) (t ++ [y]) (S n).
Proof.
  induction 1; simpl; try (constructor; assumption).
  apply edits_subst, edits_nil.
Qed.

Lemma edits_snoc_delete x s t n : edits s t n -> edits (s ++ [x]) t (S n).
Proof.
  induction 1; simpl; try (constructor; assumption).
  apply edits_delete, edits_nil.
Qed.

Lemma edits_snoc_insert y s t n : edits s t n -> edits s (t ++ [y]) (S n).
Proof.
  induction 1; simpl; try (constructor; assumption).
  apply edits_insert, edits_nil.
Qed.

Lemma edits_rev s t n : edits s t n -> edits (rev s) (rev t) n.
Proof.
  induction 1; simpl.
  - constructor.
  - now apply edits_snoc_keep.
  - now apply edits_snoc_subst.
  - now apply edits_snoc_delete.
  - now apply edits_snoc_insert.
Qed.

Lemma levenshtein_rev s t : levenshtein (rev s) (rev t) = levenshtein s t.
Proof.
  apply Nat.le_antisymm; apply levenshtein_least.
  - apply edits_rev, levenshtein_edits.
  - rewrite <- (rev_involutive s), <- (rev_involutive t) at 1.
    apply edits_rev, levenshtein_edits.
Qed.

(** Removing the first character of either side changes the least cost by
    at most one. *)
Lemma edits_tail_r s y t n :
  edits s (y :: t) n -> exists m, (m <= S n)%nat /\ edits s t m.
Proof.
  intros H. remember (y :: t) as u eqn:E. revert y t E.
  induction H as [|x s u n H IH|x z s u n H IH|x s u n H IH|z s u n H IH];
    intros y t E.
  - discriminate.
  - injection E as -> ->. exists (S n). split; [lia|now constructor].
  - injection E as -> ->. exists (S n). split; [lia|now constructor].
  - destruct (IH y t E) as (m & Hm & Hed).
    exists (S m). split; [lia|now constructor].
  - injection E as -> ->. exists n. split; [lia|assumption].
Qed.

Lemma levenshtein_tail_r s y t :
  (levenshtein s t <= levenshtein s (y :: t) + 1)%nat.
Proof.
  destruct (edits_tail_r _ _ _ _ (levenshtein_edits s (y :: t)))
    as (m & Hm & Hed).
  apply levenshtein_least in Hed. lia.
Qed.

Lemma levenshtein_tail_l x s t :
  (levenshtein s t <= levenshtein (x :: s) t + 1)%nat.
Proof.
  rewrite (levenshtein_sym s t), (levenshtein_sym (x :: s) t).
  apply levenshtein_tail_r.
Qed.

Lemma levenshtein_bound s t : (levenshtein s t <= length s + length t)%nat.
Proof.
  apply levenshtein_least.
  replace (length s + length t)%nat with (length t + length s)%nat by lia.
  revert s. induction t as [|y t IH]; intros s; simpl.
  - apply edits_all_deleted.
  - apply edits_insert, IH.
Qed.

(** The step of the dynamic program, as the source computes it: the
    diagonal entry on equal characters, else one more than the least of
    the three neighbours. *)
Lemma levenshtein_step x y p q :
  Z.of_nat (levenshtein (x :: p) (y :: q))
  = if Ascii.eqb x y then Z.of_nat (levenshtein p q)
    else Z.min (Z.of_nat (levenshtein p q) + 1)
           (Z.min (Z.of_nat (levenshtein (x :: p) q) + 1)
              (Z.of_nat (levenshtein p (y :: q)) + 1)).
Proof.
  rewrite levenshtein_cons.
  pose proof (levenshtein_tail_r p y q).
  pose proof (levenshtein_tail_l x p q).
  destruct (Ascii.eqb x y); lia.
Qed.

(** ** The dynamic program of [edit_distance] *)

Lemma list_set_length d k x : length (list_set d k x) = length d.
Proof.
  revert k. induction d as [|y d IH]; intros [|k]; simpl; auto.
Qed.

Lemma nth_list_set_eq d k x :
  (k < length d)%nat -> nth k (list_set d k x) 0 = x.
Proof.
  revert k. induction d as [|y d IH]; intros [|k]; simpl; intros H;
    try lia; trivial. apply IH. lia.
Qed.

Lemma nth_list_set_ne d k k' x :
  k <> k' -> nth k' (list_set d k x) 0 = nth k' d 0.
Proof.
  revert k k'. induction d as [|y d IH]; intros [|k] [|k']; simpl; intros H;
    trivial; try congruence. apply IH. congruence.
Qed.

Lemma vec_get_in d j :
  0 <= j < Z.of_nat (length d) -> vec_get d j = Val (nth (Z.to_nat j) d 0).
Proof.
  intros H. unfold vec_get.
  now replace ((0 <=? j) && (j <? Z.of_nat (length d))) with true
    by (symmetry; rewrite andb_true_iff, Z.leb_le, Z.ltb_lt; lia).
Qed.

Lemma vec_set_in d j x :
  0 <= j < Z.of_nat (length d) ->
  vec_set d j x = Val (list_set d (Z.to_nat j) x).
Proof.
  intros H. unfold vec_set.
  now replace ((0 <=? j) && (j <? Z.of_nat (length d))) with true
    by (symmetry; rewrite andb_true_iff, Z.leb_le, Z.ltb_lt; lia).
Qed.

Lemma firstn_snoc {A : Type} (s : list A) n x :
  nth_error s n = Some x -> firstn (S n) s = firstn n s ++ [x].
Proof.
  revert s. induction n as [|n IH]; intros [|y s]; simpl; try discriminate.
  - now intros [= ->].
  - intros H. f_equal. now apply IH.
Qed.

Lemma pre_succ s i x :
  0 <= i -> nth_error s (Z.to_nat i) = Some x -> pre s (i + 1) = x :: pre s i.
Proof.
  intros Hi Hx. unfold pre.
  replace (Z.to_nat (i + 1)) with (S (Z.to_nat i)) by lia.
  rewrite (firstn_snoc _ _ _ Hx), rev_app_distr. reflexivity.
Qed.

Lemma pre_length s i :
  0 <= i <= Z.of_nat (length s) -> Z.of_nat (length (pre s i)) = i.
Proof.
  intros H. unfold pre. rewrite length_rev, length_firstn. lia.
Qed.

Section DynamicProgram.

Variables s1 s2 : string_ref.
Hypothesis valid1 : valid s1.
Hypothesis valid2 : valid s2.

Local Abbreviation cell := (table_cell s1 s2).
Local Abbreviation is_row := (is_row s1 s2).
Local Abbreviation row_upto := (row_upto s1 s2).

Lemma cell_bound i j :
  0 <= i <= len s1 -> 0 <= j <= len s2 ->
  0 <= cell i j <= 2 * ptrdiff_max.
Proof.
  intros Hi Hj. unfold table_cell.
  pose proof (levenshtein_bound (pre (chars s1) i) (pre (chars s2) j)).
  pose proof (chars_length _ valid1). pose proof (chars_length _ valid2).
  pose proof (pre_length (chars s1) i). pose proof (pre_length (chars s2) j).
  pose proof (valid_len_bound _ valid1). pose proof (valid_len_bound _ valid2).
  lia.
Qed.

Lemma cell_0_l j : 0 <= j <= len s2 -> cell 0 j = j.
Proof.
  intros Hj. unfold table_cell. simpl. apply pre_length.
  pose proof (chars_length _ valid2). lia.
Qed.

Lemma cell_0_r i : 0 <= i <= len s1 -> cell i 0 = i.
Proof.
  intros Hi. unfold table_cell. replace (pre (chars s2) 0) with (@nil ascii) by reflexivity.
  rewrite levenshtein_nil_r. apply pre_length.
  pose proof (chars_length _ valid1). lia.
Qed.

Lemma index_chars v pos :
  valid v -> 0 <= pos < len v ->
  exists x, nth_error (chars v) (Z.to_nat pos) = Some x /\ index v pos = Val x.
Proof.
  intros Hv Hp. destruct (read_chars v pos Hv Hp) as (x & Hx & Hr).
  exists x. split; trivial. unfold index, assert.
  now replace (pos <? len v) with true by (symmetry; apply Z.ltb_lt; lia).
Qed.

Lemma cell_step i j x y :
  1 <= i <= len s1 -> 1 <= j <= len s2 ->
  nth_error (chars s1) (Z.to_nat (i - 1)) = Some x ->
  nth_error (chars s2) (Z.to_nat (j - 1)) = Some y ->
  cell i j
  = if Ascii.eqb x y then cell (i - 1) (j - 1)
    else Z.min (cell (i - 1) (j - 1) + 1)
           (Z.min (cell i (j - 1) + 1) (cell (i - 1) j + 1)).
Proof.
  intros Hi Hj Hx Hy. unfold table_cell.
  assert (E1 : pre (chars s1) i = x :: pre (chars s1) (i - 1)).
  { replace i with (i - 1 + 1) at 1 by lia. apply pre_succ; [lia|exact Hx]. }
  assert (E2 : pre (chars s2) j = y :: pre (chars s2) (j - 1)).
  { replace j with (j - 1 + 1) at 1 by lia. apply pre_succ; [lia|exact Hy]. }
  rewrite E1, E2. apply levenshtein_step.
Qed.

Lemma init_row_spec :
  forall n j dp,
    1 <= j -> j + Z.of_nat n = len s2 + 1 -> row_upto 0 j dp ->
    exists dp', init_row n j dp = Val dp' /\ is_row 0 dp'.
Proof.
  pose proof (valid_len_bound _ valid2) as B2.
  induction n as [|n IH]; intros j dp Hj Hn [Hlen Hrow].
  - exists dp. split; [reflexivity|]. split; trivial.
    intros k Hk. apply Hrow. lia.
  - cbn [init_row]. rewrite vec_set_in by lia. cbn [bind].
    rewrite wrap_small by size_t_arith.
    apply IH; try lia. split.
    + rewrite list_set_length. exact Hlen.
    + intros k Hk. destruct (Z.eq_dec k j) as [->|Hne].
      * rewrite nth_list_set_eq by lia. now rewrite cell_0_l by lia.
      * rewrite nth_list_set_ne by lia. apply Hrow. lia.
Qed.

Lemma fill_row_spec i dpPrev :
  1 <= i <= len s1 -> is_row (i - 1) dpPrev ->
  forall n j dp,
    1 <= j -> j + Z.of_nat n = len s2 + 1 -> row_upto i j dp ->
    exists dp', fill_row true s1 s2 i n j dp dpPrev = Val dp' /\ is_row i dp'.
Proof.
  intros Hi [HlenP HrowP].
  pose proof (valid_len_bound _ valid1) as B1.
  pose proof (valid_len_bound _ valid2) as B2.
  induction n as [|n IH]; intros j dp Hj Hn [Hlen Hrow].
  - exists dp. split; [reflexivity|]. split; trivial.
    intros k Hk. apply Hrow. lia.
  - cbn [fill_row].
    rewrite (wrap_small (i - 1)), (wrap_small (j - 1)), (wrap_small (j + 1))
      by size_t_arith.
    destruct (index_chars s1 (i - 1) valid1) as (x & Hx & ->); [lia|].
    destruct (index_chars s2 (j - 1) valid2) as (y & Hy & ->); [lia|].
    cbn [bind same_char].
    pose proof (cell_step i j x y ltac:(lia) ltac:(lia) Hx Hy) as Hstep.
    pose proof (cell_bound (i - 1) (j - 1) ltac:(lia) ltac:(lia)) as Bd.
    pose proof (cell_bound i (j - 1) ltac:(lia) ltac:(lia)) as Bl.
    pose proof (cell_bound (i - 1) j ltac:(lia) ltac:(lia)) as Bu.
    assert (Hnext : forall dp1,
               dp1 = list_set dp (Z.to_nat j) (cell i j) ->
               row_upto i (j + 1) dp1).
    { intros dp1 ->. split.
      - rewrite list_set_length. exact Hlen.
      - intros k Hk. destruct (Z.eq_dec k j) as [->|Hne].
        + now rewrite nth_list_set_eq by lia.
        + rewrite nth_list_set_ne by lia. apply Hrow. lia. }
    rewrite (vec_get_in dpPrev (j - 1)) by lia.
    rewrite (HrowP (j - 1)) by lia.
    destruct (Ascii.eqb x y).
    + cbn [bind]. rewrite vec_set_in by lia. cbn [bind].
      apply IH; try lia. apply Hnext. now rewrite Hstep.
    + cbn [bind]. rewrite (vec_get_in dp (j - 1)) by lia.
      rewrite (Hrow (j - 1)) by lia. cbn [bind].
      rewrite (vec_get_in dpPrev j) by lia.
      rewrite (HrowP j) by lia. cbn [bind].
      rewrite !wrap_small by size_t_arith.
      rewrite vec_set_in by lia. cbn [bind].
      apply IH; try lia. apply Hnext. now rewrite Hstep.
Qed.

Lemma fill_rows_spec :
  forall n i dp dpPrev,
    1 <= i -> i + Z.of_nat n = len s1 + 1 ->
    is_row (i - 1) dp -> Z.of_nat (length dpPrev) = len s2 + 1 ->
    exists dp', fill_rows true s1 s2 n i dp dpPrev = Val dp'
                /\ is_row (len s1) dp'.
Proof.
  pose proof (valid_len_bound _ valid1) as B1.
  pose proof (valid_len_bound _ valid2) as B2.
  induction n as [|n IH]; intros i dp dpPrev Hi Hn Hrow HlenP.
  - exists dp. split; [reflexivity|]. now replace (len s1) with (i - 1) by lia.
  - cbn [fill_rows]. rewrite vec_set_in by lia. cbn [bind].
    destruct (fill_row_spec i dp ltac:(lia) Hrow (Z.to_nat (len s2)) 1
                (list_set dpPrev (Z.to_nat 0) i)) as (dp' & -> & Hdp');
      try lia.
    { split.
      - rewrite list_set_length. exact HlenP.
      - intros k Hk. replace k with 0 by lia.
        rewrite nth_list_set_eq by lia. now rewrite cell_0_r by lia. }
    cbn [bind]. rewrite wrap_small by size_t_arith.
    apply IH; try lia.
    + now replace (i + 1 - 1) with i by lia.
    + apply Hrow.
Qed.

Lemma cell_last : cell (len s1) (len s2)
                  = Z.of_nat (levenshtein (chars s1) (chars s2)).
Proof.
  unfold table_cell, pre.
  pose proof (chars_length _ valid1). pose proof (chars_length _ valid2).
  rewrite !firstn_all2 by lia. now rewrite levenshtein_rev.
Qed.

Lemma edit_distance_levenshtein :
  edit_distance s1 s2 true
  = Val (Z.of_nat (levenshtein (chars s1) (chars s2))).
Proof.
  pose proof (valid_len_bound _ valid1) as B1.
  pose proof (valid_len_bound _ valid2) as B2.
  pose proof (chars_length _ valid1) as L1.
  pose proof (chars_length _ valid2) as L2.
  unfold edit_distance, size.
  destruct (Z.eqb_spec (len s1) 0) as [E1|E1].
  - cbn [orb]. rewrite wrap_small by size_t_arith. f_equal.
    destruct (chars s1); [simpl; lia|simpl in L1; lia].
  - destruct (Z.eqb_spec (len s2) 0) as [E2|E2]; cbn [orb].
    + rewrite wrap_small by size_t_arith. f_equal.
      destruct (chars s2); [|simpl in L2; lia].
      rewrite levenshtein_nil_r. lia.
    + rewrite wrap_small by size_t_arith.
      assert (Hmk : Z.of_nat (length (vec_make (len s2 + 1) 0)) = len s2 + 1)
        by (unfold vec_make; rewrite repeat_length; lia).
      destruct (init_row_spec (Z.to_nat (len s2)) 1 (vec_make (len s2 + 1) 0))
        as (dp0 & -> & Hdp0); try lia.
      { split; trivial. intros k Hk. replace k with 0 by lia.
        rewrite cell_0_l by lia. unfold vec_make.
        replace (Z.to_nat (len s2 + 1)) with (S (Z.to_nat (len s2))) by lia.
        reflexivity. }
      cbn [bind].
      destruct (fill_rows_spec (Z.to_nat (len s1)) 1 dp0
                  (vec_make (len s2 + 1) 0)) as (dp & -> & [Hlen Hdp]);
        trivial; try lia.
      cbn [bind]. rewrite vec_get_in by lia.
      rewrite Hdp by lia. now rewrite cell_last.
Qed.

End DynamicProgram.

(** C4: in case-sensitive mode [edit_distance] of two valid views returns
    the Levenshtein distance of their character sequences, which is the
    least number of single-character insertions, deletions and
    substitutions that turn one into the other.  It is symmetric, it is 0
    between a view and itself, against an empty view it is the length of
    the other view, and between ["sea"] and ["eat"] it is 2. *)
Theorem edit_distance_is_levenshtein (a b : string_ref) :
  valid a -> valid b ->
  edit_distance a b true = Val (Z.of_nat (levenshtein (chars a) (chars b)))
  /\ adt_edit_distance a b true = edit_distance a b true
  /\ edits (chars a) (chars b) (levenshtein (chars a) (chars b))
  /\ (forall n, edits (chars a) (chars b) n ->
                (levenshtein (chars a) (chars b) <= n)%nat)
  /\ edit_distance a b true = edit_distance b a true
  /\ edit_distance a a true = Val 0
  /\ (len a = 0 -> edit_distance a b true = Val (len b))
  /\ (len b = 0 -> edit_distance a b true = Val (len a))
  /\ (x <- View "sea" ;; y <- View "eat" ;; edit_distance x y true) = Val 2.
Proof.
  intros Ha Hb.
  pose proof (chars_length _ Ha) as La. pose proof (chars_length _ Hb) as Lb.
  rewrite !edit_distance_levenshtein by assumption.
  split; [reflexivity|]. split; [reflexivity|].
  split; [apply levenshtein_edits|].
  split; [apply levenshtein_least|].
  split; [now rewrite levenshtein_sym|].
  split; [now rewrite levenshtein_refl|].
  split; [|split; [|reflexivity]].
  - intros E. f_equal. destruct (chars a); [simpl; lia|simpl in La; lia].
  - intros E. f_equal. destruct (chars b); [|simpl in Lb; lia].
    rewrite levenshtein_nil_r. lia.
Qed.

Lemma edit_distance_is_levenshtein_witness :
  (valid (std "aaccb") /\ valid (std "aab"))
  /\ edit_distance (std "aaccb") (std "aab") true = Val 2
  /\ edit_distance (std "aab") (std "aaccb") true = Val 2.
Proof.
  assert (Ha : valid (std "aaccb")) by (unfold valid; simpl; size_t_arith).
  assert (Hb : valid (std "aab")) by (unfold valid; simpl; size_t_arith).
  destruct (edit_distance_is_levenshtein _ _ Ha Hb)
    as (H & _ & _ & _ & Hs & _).
  split; [auto|]. split; [rewrite H | rewrite <- Hs, H]; reflexivity.
Defined.

(** ** Forward search for a character, and splitting at a character *)

Lemma skipn_cons_nth {A : Type} (l : list A) n x :
  nth_error l n = Some x -> skipn n l = x :: skipn (S n) l.
Proof.
  revert l. induction n as [|n IH]; intros [|y l]; simpl; try discriminate.
  - now intros [= ->].
  - apply IH.
Qed.

Lemma index_of_some c l k :
  index_of c l = Some k ->
  (k < length l)%nat /\ nth_error l k = Some c /\ ~ In c (firstn k l).
Proof.
  revert k. induction l as [|x l IH]; intros k; simpl; [discriminate|].
  destruct (Ascii.eqb_spec c x) as [->|Hne].
  - intros [= <-]. simpl. repeat split; [lia|tauto].
  - destruct (index_of c l) as [k'|]; [|discriminate]. intros [= <-].
    destruct (IH k' eq_refl) as (H1 & H2 & H3). simpl.
    repeat split; [lia|assumption|]. intros [E|E]; [congruence|contradiction].
Qed.

Lemma index_of_none c l : index_of c l = None -> ~ In c l.
Proof.
  induction l as [|x l IH]; simpl; [tauto|].
  destruct (Ascii.eqb_spec c x) as [->|Hne]; [discriminate|].
  destruct (index_of c l); [discriminate|]. intros _ [E|E]; [congruence|].
  now apply IH.
Qed.

Lemma find_char_loop_index_of v c :
  valid v ->
  forall n i, 0 <= i -> i + Z.of_nat n = len v ->
    find_char_loop (ps v) c n i
    = Val (match index_of c (skipn (Z.to_nat i) (chars v)) with
           | Some k => i + Z.of_nat k
           | None => npos
           end).
Proof.
  intros Hv. pose proof (valid_len_bound _ Hv) as B.
  pose proof (chars_length _ Hv) as L.
  induction n as [|n IH]; intros i Hi Hn.
  - rewrite skipn_all2 by lia. reflexivity.
  - cbn [find_char_loop].
    destruct (read_chars v i Hv) as (x & Hx & ->); [lia|]. cbn [bind].
    rewrite (skipn_cons_nth _ _ _ Hx). cbn [index_of].
    destruct (Ascii.eqb c x); [f_equal; lia|].
    rewrite wrap_small by size_t_arith. rewrite IH by lia.
    replace (Z.to_nat (i + 1)) with (S (Z.to_nat i)) by lia.
    destruct (index_of c _); simpl; [f_equal; lia|reflexivity].
Qed.

(** [find(c)] returns the first index that holds [c], [npos] if none does. *)
Lemma find_index_of v c :
  valid v ->
  find v c = Val (match index_of c (chars v) with
                  | Some k => Z.of_nat k
                  | None => npos
                  end).
Proof.
  intros Hv. pose proof (valid_len_bound _ Hv) as B.
  pose proof (chars_length _ Hv) as L.
  unfold find, find_char. destruct (Z.geb_spec 0 (len v)) as [E|E].
  - destruct (chars v); [reflexivity|simpl in L; lia].
  - rewrite (find_char_loop_index_of v c Hv) by lia.
    simpl (skipn _ _). now destruct (index_of c (chars v)).
Qed.

(** [split(char)]: the two halves around the first occurrence, the
    separator in neither; the whole view and the default view if the
    separator does not occur. *)
Lemma split_char_spec v sep :
  valid v ->
  exists before after,
    split v sep = Val (before, after)
    /\ valid before /\ valid after
    /\ (In sep (chars v) ->
        chars v = chars before ++ sep :: chars after
        /\ ~ In sep (chars before))
    /\ (~ In sep (chars v) -> before = v /\ after = string_ref_default).
Proof.
  intros Hv. pose proof (valid_len_bound _ Hv) as B.
  pose proof (valid_in_range _ Hv) as R.
  pose proof (chars_length _ Hv) as L.
  unfold split. rewrite (find_index_of v sep Hv).
  destruct (index_of sep (chars v)) as [k|] eqn:E; cbn [bind].
  - destruct (index_of_some _ _ _ E) as (Hk & Hnth & Hnot).
    replace (Z.of_nat k =? npos) with false
      by (symmetry; apply Z.eqb_neq; rewrite npos_eq; size_t_arith).
    rewrite wrap_small by size_t_arith.
    destruct (slice_valid_chars v 0 (Z.of_nat k)) as [V1 C1];
      trivial; try size_t_arith.
    destruct (slice_valid_chars v (Z.of_nat k + 1) (len v)) as [V2 C2];
      trivial; try size_t_arith.
    do 2 eexists. split; [reflexivity|]. split; [exact V1|].
    split; [exact V2|]. split; [|intros Hn; exfalso; apply Hn;
      now apply nth_error_In with k].
    intros _. rewrite C1, C2.
    replace (Z.min (Z.min 0 (Z.of_nat k)) (len v)) with 0 by lia.
    replace (Z.min (Z.max 0 (Z.of_nat k)) (len v)) with (Z.of_nat k) by lia.
    replace (Z.min (Z.min (Z.of_nat k + 1) (len v)) (len v))
      with (Z.of_nat k + 1) by lia.
    replace (Z.min (Z.max (Z.of_nat k + 1) (len v)) (len v))
      with (len v) by lia.
    unfold range. simpl (skipn (Z.to_nat 0) _).
    rewrite Z.sub_0_r, Nat2Z.id.
    replace (Z.to_nat (Z.of_nat k + 1)) with (S k) by lia.
    rewrite (firstn_all2 (n := Z.to_nat (len v - (Z.of_nat k + 1))))
      by (rewrite length_skipn; lia).
    split; [|exact Hnot].
    now rewrite <- (skipn_cons_nth _ _ _ Hnth), firstn_skipn.
  - change (npos =? npos) with true. cbn [bind].
    exists v, string_ref_default. split; [reflexivity|].
    split; [exact Hv|]. split; [unfold valid; simpl; lia|].
    split; [|tauto]. intros Hin. now apply index_of_none in E.
Qed.

(** ** Splitting at the last occurrence of a character *)




(** With the separator present and enough fuel, [rsplit(char)] returns
    the two halves around its last occurrence. *)
Lemma rsplit_char_found v sep j :
  valid v -> 0 <= j < len v ->
  nth_error (chars v) (Z.to_nat j) = Some sep ->
  (forall k, j < k < len v -> nth_error (chars v) (Z.to_nat k) <> Some sep) ->
  forall fuel, (Z.to_nat (len v - 1 - j) < fuel)%nat ->
  exists before after,
    rsplit fuel v sep = Some (Val (before, after))
    /\ valid before /\ valid after
    /\ chars before = firstn (Z.to_nat j) (chars v)
    /\ chars after = skipn (S (Z.to_nat j)) (chars v).
Proof.
  intros Hv Hj Hnth Hlast fuel Hfuel.
  pose proof (valid_len_bound _ Hv) as B.
  pose proof (valid_in_range _ Hv) as R.
  pose proof (chars_length _ Hv) as L.
  unfold rsplit, rfind.
  rewrite (rfind_char_found v sep npos j Hv);
    try (rewrite ?npos_eq; size_t_arith);
    try (rewrite npos_eq;
         replace (Z.min _ (len v - 1)) with (len v - 1) by lia; exact Hfuel).
  - cbn [option_map bind].
    replace (j =? npos) with false
      by (symmetry; apply Z.eqb_neq; rewrite npos_eq; size_t_arith).
    rewrite wrap_small by size_t_arith.
    destruct (slice_valid_chars v 0 j) as [V1 C1];
      trivial; try size_t_arith.
    destruct (slice_valid_chars v (j + 1) (len v)) as [V2 C2];
      trivial; try size_t_arith.
    do 2 eexists. split; [reflexivity|]. split; [exact V1|].
    split; [exact V2|]. rewrite C1, C2.
    replace (Z.min (Z.min 0 j) (len v)) with 0 by lia.
    replace (Z.min (Z.max 0 j) (len v)) with j by lia.
    replace (Z.min (Z.min (j + 1) (len v)) (len v)) with (j + 1) by lia.
    replace (Z.min (Z.max (j + 1) (len v)) (len v)) with (len v) by lia.
    unfold range. simpl (skipn (Z.to_nat 0) _). rewrite Z.sub_0_r.
    replace (Z.to_nat (j + 1)) with (S (Z.to_nat j)) by lia.
    split; [reflexivity|].
    apply firstn_all2. rewrite length_skipn. lia.
  - exact Hnth.
  - intros k Hk. apply Hlast. rewrite npos_eq in Hk. lia.
Qed.

(** ** Searching for a pattern *)

Lemma prefixb_firstn p s : prefixb p s = true <-> firstn (length p) s = p.
Proof.
  revert s. induction p as [|x p IH]; intros [|y s]; simpl;
    try tauto; try (split; discriminate).
  rewrite andb_true_iff, IH. destruct (Ascii.eqb_spec x y) as [->|Hne].
  - split; [intros [_ ->]; reflexivity | intros [= E]; auto].
  - split; [intros [? _]; discriminate | intros [= E _]; congruence].
Qed.

Lemma first_occ_some needle hay i r :
  first_occ needle hay i = Some r ->
  exists k, r = i + Z.of_nat k /\ (k <= length hay)%nat
            /\ prefixb needle (skipn k hay) = true
            /\ forall k', (k' < k)%nat -> prefixb needle (skipn k' hay) = false.
Proof.
  revert i. induction hay as [|x hay IH]; intros i; cbn [first_occ].
  - destruct (prefixb needle []) eqn:E; [|discriminate]. intros [= <-].
    exists O. repeat split; trivial; [lia|]. intros k' Hk'. lia.
  - destruct (prefixb needle (x :: hay)) eqn:E.
    + intros [= <-]. exists O. repeat split; trivial; [lia|simpl; lia|].
      intros k' Hk'. lia.
    + intros H. destruct (IH _ H) as (k & -> & Hk & Hm & Hfirst).
      exists (S k). repeat split; trivial; [lia|simpl; lia|].
      intros [|k'] Hk'; [exact E|]. apply Hfirst. lia.
Qed.

Lemma first_occ_none needle hay i :
  first_occ needle hay i = None ->
  forall k, prefixb needle (skipn k hay) = false.
Proof.
  revert i. induction hay as [|x hay IH]; intros i; cbn [first_occ].
  - destruct (prefixb needle []) eqn:E; [discriminate|].
    intros _ k. now rewrite skipn_nil.
  - destruct (prefixb needle (x :: hay)) eqn:E; [discriminate|].
    intros H [|k]; [exact E|]. apply (IH _ H).
Qed.

Lemma last_occ_none needle hay i :
  last_occ needle hay i = None ->
  forall k, prefixb needle (skipn k hay) = false.
Proof.
  revert i. induction hay as [|x hay IH]; intros i; cbn [last_occ].
  - destruct (prefixb needle []) eqn:E; [discriminate|].
    intros _ k. now rewrite skipn_nil.
  - destruct (last_occ needle hay (i + 1)) eqn:El; [discriminate|].
    destruct (prefixb needle (x :: hay)) eqn:E; [discriminate|].
    intros _ [|k]; [exact E|]. apply (IH _ El).
Qed.

Lemma last_occ_some needle hay i r :
  last_occ needle hay i = Some r ->
  exists k, r = i + Z.of_nat k /\ (k <= length hay)%nat
            /\ prefixb needle (skipn k hay) = true
            /\ forall k', (k < k' <= length hay)%nat ->
                          prefixb needle (skipn k' hay) = false.
Proof.
  revert i. induction hay as [|x hay IH]; intros i; cbn [last_occ].
  - destruct (prefixb needle []) eqn:E; [|discriminate]. intros [= <-].
    exists O. repeat split; trivial; [lia|]. simpl. intros k' Hk'. lia.
  - destruct (last_occ needle hay (i + 1)) as [j|] eqn:El.
    + intros [= <-]. destruct (IH _ El) as (k & -> & Hk & Hm & Hlast).
      exists (S k). repeat split; trivial; [lia|simpl; lia|].
      intros [|k'] Hk'; [lia|]. apply Hlast. simpl in Hk'. lia.
    + destruct (prefixb needle (x :: hay)) eqn:E; [|discriminate].
      intros [= <-]. exists O. repeat split; trivial; [lia|simpl; lia|].
      intros [|k'] Hk'; [lia|]. apply (last_occ_none _ _ _ El).
Qed.

Lemma to_string_chars v : valid v -> to_string v = Val (chars v).
Proof. apply load_chars. Qed.

(** [rfind(pattern)] on valid views, for a non-empty pattern: the position
    of the last occurrence, [npos] if there is none. *)
Lemma rfind_str_last_occ v pattern :
  valid v -> valid pattern -> 0 < len pattern ->
  rfind_str v pattern
  = Val (match last_occ (chars pattern) (chars v) 0 with
         | Some i => i
         | None => npos
         end).
Proof.
  intros Hv Hp Hpos. pose proof (valid_len_bound _ Hv) as B.
  pose proof (chars_length _ Hv) as L.
  unfold rfind_str, size.
  replace (len pattern =? 0) with false by (symmetry; apply Z.eqb_neq; lia).
  rewrite !to_string_chars by assumption. cbn [bind].
  unfold std_string_rfind.
  destruct (last_occ (chars pattern) (chars v) 0) as [i|] eqn:E.
  - destruct (last_occ_some _ _ _ _ E) as (k & -> & Hk & _).
    now replace (0 + Z.of_nat k =? npos) with false
      by (symmetry; apply Z.eqb_neq; rewrite npos_eq; size_t_arith).
  - reflexivity.
Qed.

(** [rsplit(pattern)] on valid views, for a non-empty pattern: the two
    halves around the last occurrence of the pattern, or the whole view
    and the default view. *)
Lemma rsplit_str_spec v sep :
  valid v -> valid sep -> 0 < len sep ->
  exists before after,
    rsplit_str v sep = Val (before, after)
    /\ valid before /\ valid after
    /\ ((exists k, matches_at (chars sep) (chars v) k = true) ->
        chars v = chars before ++ chars sep ++ chars after
        /\ forall k, (length (chars before) < k)%nat ->
                     matches_at (chars sep) (chars v) k = false)
    /\ ((forall k, matches_at (chars sep) (chars v) k = false) ->
        before = v /\ after = string_ref_default).
Proof.
  intros Hv Hs Hpos. pose proof (valid_len_bound _ Hv) as B.
  pose proof (valid_len_bound _ Hs) as Bs.
  pose proof (valid_in_range _ Hv) as R.
  pose proof (chars_length _ Hv) as L. pose proof (chars_length _ Hs) as Ls.
  assert (Hmatch : forall k, matches_at (chars sep) (chars v) k
                             = prefixb (chars sep) (skipn k (chars v))).
  { intros k. unfold matches_at.
    destruct (list_eq_dec ascii_dec _ _) as [E|E].
    - symmetry. now apply prefixb_firstn.
    - destruct (prefixb _ _) eqn:E'; trivial.
      now apply prefixb_firstn in E'. }
  unfold rsplit_str. rewrite rfind_str_last_occ by assumption.
  destruct (last_occ (chars sep) (chars v) 0) as [i|] eqn:E; cbn [bind].
  - destruct (last_occ_some _ _ _ _ E) as (k & -> & Hk & Hm & Hlast).
    rewrite Z.add_0_l.
    replace (Z.of_nat k =? npos) with false
      by (symmetry; apply Z.eqb_neq; rewrite npos_eq; size_t_arith).
    apply prefixb_firstn in Hm.
    assert (Hfit : Z.of_nat k + len sep <= len v).
    { apply (f_equal (@length ascii)) in Hm.
      rewrite length_firstn, length_skipn in Hm. lia. }
    unfold size. rewrite wrap_small by size_t_arith.
    destruct (slice_valid_chars v 0 (Z.of_nat k)) as [V1 C1];
      trivial; try size_t_arith.
    destruct (slice_valid_chars v (Z.of_nat k + len sep) (len v)) as [V2 C2];
      trivial; try size_t_arith.
    do 2 eexists. split; [reflexivity|]. split; [exact V1|].
    split; [exact V2|]. rewrite C1, C2.
    replace (Z.min (Z.min 0 (Z.of_nat k)) (len v)) with 0 by lia.
    replace (Z.min (Z.max 0 (Z.of_nat k)) (len v)) with (Z.of_nat k) by lia.
    replace (Z.min (Z.min (Z.of_nat k + len sep) (len v)) (len v))
      with (Z.of_nat k + len sep) by lia.
    replace (Z.min (Z.max (Z.of_nat k + len sep) (len v)) (len v))
      with (len v) by lia.
    unfold range. simpl (skipn (Z.to_nat 0) _). rewrite Z.sub_0_r, Nat2Z.id.
    rewrite (firstn_all2 (n := Z.to_nat (len v - (Z.of_nat k + len sep))))
      by (rewrite length_skipn; lia).
    split.
    + intros _. split.
      * replace (Z.to_nat (Z.of_nat k + len sep))
          with (length (chars sep) + k)%nat by lia.
        rewrite <- skipn_skipn.
        pose proof (firstn_skipn (length (chars sep)) (skipn k (chars v)))
          as Ht.
        rewrite Hm in Ht. rewrite Ht. symmetry. apply firstn_skipn.
      * intros k' Hk'. rewrite Hmatch. rewrite length_firstn in Hk'.
        destruct (Nat.le_gt_cases k' (length (chars v))) as [Hin|Hout].
        -- apply Hlast. lia.
        -- rewrite skipn_all2 by lia.
           destruct (chars sep); [simpl in Ls; lia|reflexivity].
    + intros Hnone. specialize (Hnone k). rewrite Hmatch in Hnone.
      apply prefixb_firstn in Hm. congruence.
  - change (npos =? npos) with true. cbn [bind].
    exists v, string_ref_default. split; [reflexivity|].
    split; [exact Hv|]. split; [unfold valid; simpl; lia|].
    split; [|tauto]. intros [k Hk]. rewrite Hmatch in Hk.
    now rewrite (last_occ_none _ _ _ E k) in Hk.
Qed.

Lemma until_nul_app l rest :
  ~ In NUL l -> until_nul (l ++ NUL :: rest) = Some l.
Proof.
  induction l as [|x l IH]; simpl; intros H.
  - reflexivity.
  - destruct (Ascii.eqb_spec x NUL) as [->|_]; [tauto|].
    rewrite IH by tauto. reflexivity.
Qed.

Lemma c_string_c_str s : ~ In NUL s -> c_string (c_str s) = Val s.
Proof.
  intros H. unfold c_string, c_str.
  replace ((0 <=? 0) && (0 <=? Z.of_nat (length (s ++ [NUL])))) with true
    by (symmetry; rewrite andb_true_iff, !Z.leb_le; lia).
  simpl (skipn _ _). now rewrite until_nul_app.
Qed.

Lemma c_string_terminated v :
  valid v -> terminated v -> c_string (ps v) = Val (chars v).
Proof.
  intros [Hp Hl] [Hread Hnul]. unfold chars, c_string, read in *.
  destruct (ps v) as [|b o]; [discriminate|]. simpl in Hp, Hl.
  replace ((0 <=? o) && (o <=? Z.of_nat (length b))) with true
    by (symmetry; rewrite andb_true_iff, !Z.leb_le; lia).
  destruct ((0 <=? o + len v) && (o + len v <? Z.of_nat (length b)));
    [|discriminate].
  destruct (nth_error b (Z.to_nat (o + len v))) as [c|] eqn:E;
    [|discriminate].
  injection Hread as ->.
  rewrite <- (firstn_skipn (Z.to_nat (len v)) (skipn (Z.to_nat o) b)) at 1.
  rewrite skipn_skipn.
  replace (Z.to_nat (len v) + Z.to_nat o)%nat with (Z.to_nat (o + len v))
    by lia.
  rewrite (skipn_cons_nth _ _ _ E). now rewrite until_nul_app.
Qed.

(** On a valid view that is also a C string, [find(pattern)] returns the
    position of the first occurrence of a non-empty, terminator-free
    pattern, [npos] if there is none. *)
Lemma find_str_terminated v pattern :
  valid v -> terminated v ->
  valid pattern -> 0 < len pattern -> ~ In NUL (chars pattern) ->
  find_str v pattern
  = Val (match first_occ (chars pattern) (chars v) 0 with
         | Some i => i
         | None => npos
         end).
Proof.
  intros Hv Ht Hp Hpos Hnul. pose proof (valid_len_bound _ Hv) as B.
  pose proof (chars_length _ Hv) as L.
  unfold find_str, size.
  replace (len pattern =? 0) with false by (symmetry; apply Z.eqb_neq; lia).
  rewrite to_string_chars by assumption. cbn [bind]. unfold strstr.
  rewrite c_string_terminated, c_string_c_str by assumption. cbn [bind].
  destruct (first_occ (chars pattern) (chars v) 0) as [i|] eqn:E;
    [|reflexivity].
  destruct (first_occ_some _ _ _ _ E) as (k & -> & Hk & _).
  destruct Ht as [Hread _].
  destruct (ps v) as [|b o]; [discriminate|].
  cbn [ptr_add bind]. cbn [ptr_diff].
  f_equal. replace (o + (0 + Z.of_nat k) - o) with (0 + Z.of_nat k) by lia.
  apply wrap_small. size_t_arith.
Qed.

(** With it, [split(pattern)] is right on such views. *)
Lemma split_str_terminated v sep :
  valid v -> terminated v ->
  valid sep -> 0 < len sep -> ~ In NUL (chars sep) ->
  exists before after,
    split_str v sep = Val (before, after)
    /\ valid before /\ valid after
    /\ ((exists k, matches_at (chars sep) (chars v) k = true) ->
        chars v = chars before ++ chars sep ++ chars after
        /\ forall k, (k < length (chars before))%nat ->
                     matches_at (chars sep) (chars v) k = false)
    /\ ((forall k, matches_at (chars sep) (chars v) k = false) ->
        before = v /\ after = string_ref_default).
Proof.
  intros Hv Ht Hs Hpos Hnul. pose proof (valid_len_bound _ Hv) as B.
  pose proof (valid_len_bound _ Hs) as Bs.
  pose proof (valid_in_range _ Hv) as R.
  pose proof (chars_length _ Hv) as L. pose proof (chars_length _ Hs) as Ls.
  assert (Hmatch : forall k, matches_at (chars sep) (chars v) k
                             = prefixb (chars sep) (skipn k (chars v))).
  { intros k. unfold matches_at.
    destruct (list_eq_dec ascii_dec _ _) as [E|E].
    - symmetry. now apply prefixb_firstn.
    - destruct (prefixb _ _) eqn:E'; trivial.
      now apply prefixb_firstn in E'. }
  unfold split_str. rewrite find_str_terminated by assumption.
  destruct (first_occ (chars sep) (chars v) 0) as [i|] eqn:E; cbn [bind].
  - destruct (first_occ_some _ _ _ _ E) as (k & -> & Hk & Hm & Hfirst).
    rewrite Z.add_0_l.
    replace (Z.of_nat k =? npos) with false
      by (symmetry; apply Z.eqb_neq; rewrite npos_eq; size_t_arith).
    apply prefixb_firstn in Hm.
    assert (Hfit : Z.of_nat k + len sep <= len v).
    { apply (f_equal (@length ascii)) in Hm.
      rewrite length_firstn, length_skipn in Hm. lia. }
    unfold size. rewrite wrap_small by size_t_arith.
    destruct (slice_valid_chars v 0 (Z.of_nat k)) as [V1 C1];
      trivial; try size_t_arith.
    destruct (slice_valid_chars v (Z.of_nat k + len sep) (len v)) as [V2 C2];
      trivial; try size_t_arith.
    do 2 eexists. split; [reflexivity|]. split; [exact V1|].
    split; [exact V2|]. rewrite C1, C2.
    replace (Z.min (Z.min 0 (Z.of_nat k)) (len v)) with 0 by lia.
    replace (Z.min (Z.max 0 (Z.of_nat k)) (len v)) with (Z.of_nat k) by lia.
    replace (Z.min (Z.min (Z.of_nat k + len sep) (len v)) (len v))
      with (Z.of_nat k + len sep) by lia.
    replace (Z.min (Z.max (Z.of_nat k + len sep) (len v)) (len v))
      with (len v) by lia.
    unfold range. simpl (skipn (Z.to_nat 0) _). rewrite Z.sub_0_r, Nat2Z.id.
    rewrite (firstn_all2 (n := Z.to_nat (len v - (Z.of_nat k + len sep))))
      by (rewrite length_skipn; lia).
    split.
    + intros _. split.
      * replace (Z.to_nat (Z.of_nat k + len sep))
          with (length (chars sep) + k)%nat by lia.
        rewrite <- skipn_skipn.
        pose proof (firstn_skipn (length (chars sep)) (skipn k (chars v)))
          as Hcut.
        rewrite Hm in Hcut. rewrite Hcut. symmetry. apply firstn_skipn.
      * intros k' Hk'. rewrite Hmatch. apply Hfirst.
        rewrite length_firstn in Hk'. lia.
    + intros Hnone. specialize (Hnone k). rewrite Hmatch in Hnone.
      apply prefixb_firstn in Hm. congruence.
  - change (npos =? npos) with true. cbn [bind].
    exists v, string_ref_default. split; [reflexivity|].
    split; [exact Hv|]. split; [unfold valid; simpl; lia|].
    split; [|tauto]. intros [k Hk]. rewrite Hmatch in Hk.
    now rewrite (first_occ_none _ _ _ E k) in Hk.
Qed.

(** * The rest of the class *)

(** ** Forward search from a start index *)

Lemma find_if_loop_first v pred :
  valid v ->
  forall n i, 0 <= i -> i + Z.of_nat n = len v ->
    exists r, find_if_loop (ps v) pred n i = Val r
              /\ ((r = npos /\ none_from v pred i) \/ first_from v pred i r).
Proof.
  intros Hv. pose proof (valid_len_bound _ Hv) as B.
  induction n as [|n IH]; intros i Hi Hn.
  - exists npos. split; [reflexivity|]. left. split; trivial.
    intros k Hk. lia.
  - cbn [find_if_loop].
    destruct (read_chars v i Hv) as (x & Hx & ->); [lia|]. cbn [bind].
    destruct (pred x) eqn:Hp.
    + exists i. split; [reflexivity|]. right. split; [lia|]. split.
      * now exists x.
      * intros k Hk. lia.
    + rewrite wrap_small by size_t_arith.
      destruct (IH (i + 1)) as (r & -> & Hr); try lia.
      assert (Hi' : ~ holds_at v pred i)
        by (intros (y & Hy & Hpy); congruence).
      exists r. split; [reflexivity|].
      destruct Hr as [[-> Hnone]|(Hrange & Hat & Hbefore)].
      * left. split; trivial. intros k Hk.
        destruct (Z.eq_dec k i) as [->|Hne]; [exact Hi'|]. apply Hnone. lia.
      * right. split; [lia|]. split; [exact Hat|]. intros k Hk.
        destruct (Z.eq_dec k i) as [->|Hne]; [exact Hi'|]. apply Hbefore. lia.
Qed.

Lemma find_char_loop_as_find_if p c n i :
  find_char_loop p c n i = find_if_loop p (Ascii.eqb c) n i.
Proof.
  revert i. induction n as [|n IH]; intros i; simpl; trivial.
  destruct (read p i); simpl; trivial. now rewrite IH.
Qed.

(** [find_if(pred, start)] returns the first index at or after [start]
    whose character satisfies the predicate; it returns [npos] when there
    is none, in particular when [start >= length].  [find_if_not] is the
    same search for the first character that fails the predicate. *)
Theorem find_if_first_from (v : string_ref) (pred : ascii -> bool) (start : Z) :
  valid v -> in_range start ->
  (exists r, find_if v pred start = Val r
             /\ ((r = npos /\ none_from v pred start)
                 \/ first_from v pred start r))
  /\ (exists r, find_if_not v pred start = Val r
                /\ ((r = npos /\ none_from v (fun c => negb (pred c)) start)
                    \/ first_from v (fun c => negb (pred c)) start r))
  /\ (len v <= start -> find_if v pred start = Val npos).
Proof.
  intros Hv Hs. pose proof (valid_len_bound _ Hv) as B.
  assert (H : forall q, exists r, find_if v q start = Val r
             /\ ((r = npos /\ none_from v q start) \/ first_from v q start r)).
  { intros q. unfold find_if. destruct (Z.geb_spec start (len v)) as [E|E].
    - exists npos. split; [reflexivity|]. left. split; trivial.
      intros k Hk. lia.
    - rewrite wrap_small by size_t_arith.
      apply find_if_loop_first; trivial; unfold in_range in *; lia. }
  split; [apply H|]. split; [apply H|].
  intros Hle. unfold find_if.
  now replace (start >=? len v) with true
    by (symmetry; rewrite Z.geb_leb; apply Z.leb_le; lia).
Qed.

Lemma find_if_first_from_witness :
  (valid (std "abcab") /\ in_range 1)
  /\ find_if (std "abcab") (Ascii.eqb "a") 1 = Val 3
  /\ find_if (std "abcab") (Ascii.eqb "a") 5 = Val npos.
Proof.
  assert (Hv : valid (std "abcab")) by (unfold valid; simpl; size_t_arith).
  assert (H1 : in_range 1) by size_t_arith.
  assert (H5 : in_range 5) by size_t_arith.
  destruct (find_if_first_from (std "abcab") (Ascii.eqb "a") 5 Hv H5)
    as (_ & _ & Hout).
  split; [auto|]. split; [reflexivity|]. apply Hout. simpl. lia.
Defined.

(** [find_char(c, start)], and with it [find(c, start)], returns the first
    index at or after [start] that holds [c], and [npos] when no such
    index exists or [start >= length]; it never returns an index outside
    [start .. length - 1]. *)
Theorem find_char_first_from (v : string_ref) (c : ascii) (start : Z) :
  valid v -> in_range start ->
  (exists r, find_char v c start = Val r
             /\ ((r = npos
                  /\ forall k, start <= k < len v ->
                       nth_error (chars v) (Z.to_nat k) <> Some c)
                 \/ (start <= r < len v
                     /\ nth_error (chars v) (Z.to_nat r) = Some c
                     /\ forall k, start <= k < r ->
                          nth_error (chars v) (Z.to_nat k) <> Some c)))
  /\ (len v <= start -> find_char v c start = Val npos)
  /\ find v c = find_char v c 0.
Proof.
  intros Hv Hs. pose proof (valid_len_bound _ Hv) as B.
  assert (Hat : forall k, holds_at v (Ascii.eqb c) k
                          <-> nth_error (chars v) (Z.to_nat k) = Some c).
  { intros k. split.
    - intros (x & Hx & Hc). apply Ascii.eqb_eq in Hc. now subst x.
    - intros Hk. exists c. split; [exact Hk|apply Ascii.eqb_refl]. }
  split; [|split; [|reflexivity]].
  - unfold find_char. destruct (Z.geb_spec start (len v)) as [E|E].
    + exists npos. split; [reflexivity|]. left. split; trivial.
      intros k Hk. lia.
    + rewrite find_char_loop_as_find_if.
      destruct (find_if_loop_first v (Ascii.eqb c) Hv
                  (Z.to_nat (len v - start)) start) as (r & -> & Hr);
        try (unfold in_range in *; lia).
      exists r. split; [reflexivity|].
      destruct Hr as [[-> Hnone]|(Hrange & Hr & Hbefore)].
      * left. split; trivial. intros k Hk Hc. apply (Hnone k Hk).
        now apply Hat.
      * right. split; [exact Hrange|]. split; [now apply Hat|].
        intros k Hk Hc. apply (Hbefore k Hk). now apply Hat.
  - intros Hle. unfold find_char.
    now replace (start >=? len v) with true
      by (symmetry; rewrite Z.geb_leb; apply Z.leb_le; lia).
Qed.

Lemma find_char_first_from_witness :
  (valid (std "abcab") /\ in_range 1)
  /\ find_char (std "abcab") "b" 2 = Val 4
  /\ find_char (std "abcab") "z" 1 = Val npos
  /\ find_char (std "abcab") "a" 7 = Val npos.
Proof.
  assert (Hv : valid (std "abcab")) by (unfold valid; simpl; size_t_arith).
  assert (H1 : in_range 1) by size_t_arith.
  assert (H7 : in_range 7) by size_t_arith.
  destruct (find_char_first_from (std "abcab") "a" 7 Hv H7) as (_ & Hout & _).
  split; [auto|]. split; [reflexivity|]. split; [reflexivity|].
  apply Hout. simpl. lia.
Defined.

(** ** Counting a character, and membership *)

Lemma count_char_loop_counts v c :
  valid v ->
  forall n i count, 0 <= i -> i + Z.of_nat n = len v -> 0 <= count <= i ->
    count_char_loop (ps v) c n i count
    = Val (count
           + Z.of_nat (count_occ ascii_dec (skipn (Z.to_nat i) (chars v)) c)).
Proof.
  intros Hv. pose proof (valid_len_bound _ Hv) as B.
  pose proof (chars_length _ Hv) as L.
  induction n as [|n IH]; intros i count Hi Hn Hc.
  - rewrite skipn_all2 by lia. simpl. f_equal. lia.
  - cbn [count_char_loop].
    destruct (read_chars v i Hv) as (x & Hx & ->); [lia|]. cbn [bind].
    rewrite (skipn_cons_nth _ _ _ Hx).
    rewrite wrap_small by size_t_arith.
    replace (S (Z.to_nat i)) with (Z.to_nat (i + 1)) by lia.
    destruct (Ascii.eqb_spec x c) as [->|Hne].
    + rewrite wrap_small by size_t_arith. rewrite IH by lia.
      rewrite count_occ_cons_eq by reflexivity. f_equal. lia.
    + rewrite IH by lia. now rewrite count_occ_cons_neq by assumption.
Qed.

(** [count_char(c)] returns the number of indices of the view that hold
    [c]: 0 exactly when [c] does not occur, and never more than the
    length. *)
Theorem count_char_counts (v : string_ref) (c : ascii) :
  valid v ->
  count_char v c = Val (Z.of_nat (count_occ ascii_dec (chars v) c))
  /\ (count_char v c = Val 0 <-> ~ In c (chars v))
  /\ (forall n, count_char v c = Val n -> 0 <= n <= len v).
Proof.
  intros Hv. pose proof (valid_len_bound _ Hv) as B.
  pose proof (chars_length _ Hv) as L.
  assert (E : count_char v c = Val (Z.of_nat (count_occ ascii_dec (chars v) c))).
  { unfold count_char. rewrite (count_char_loop_counts v c Hv) by lia.
    reflexivity. }
  rewrite E. split; [reflexivity|]. split.
  - rewrite (count_occ_not_In ascii_dec). split.
    + intros [= H]. lia.
    + intros ->. reflexivity.
  - intros n [= <-]. pose proof (count_occ_bound ascii_dec c (chars v)). lia.
Qed.

Lemma count_char_counts_witness :
  valid (std "abcab")
  /\ count_char (std "abcab") "b" = Val 2
  /\ count_char (std "abcab") "z" = Val 0.
Proof.
  assert (Hv : valid (std "abcab")) by (unfold valid; simpl; size_t_arith).
  destruct (count_char_counts (std "abcab") "z" Hv) as (_ & Hz & _).
  split; [exact Hv|]. split; [reflexivity|].
  apply Hz. simpl. intuition discriminate.
Defined.

(** [contains(c)] is true exactly when some index of the view holds [c];
    on an empty view it is false. *)
Theorem contains_iff_occurs (v : string_ref) (c : ascii) :
  valid v ->
  exists b, contains v c = Val b
            /\ (b = true <-> In c (chars v))
            /\ (len v = 0 -> b = false).
Proof.
  intros Hv. pose proof (valid_len_bound _ Hv) as B.
  pose proof (chars_length _ Hv) as L.
  unfold contains. rewrite (find_index_of v c Hv).
  destruct (index_of c (chars v)) as [k|] eqn:E; cbn [bind].
  - destruct (index_of_some _ _ _ E) as (Hk & Hnth & _).
    replace (Z.of_nat k =? npos) with false
      by (symmetry; apply Z.eqb_neq; rewrite npos_eq; size_t_arith).
    exists true. split; [reflexivity|]. split.
    + split; trivial. intros _. now apply nth_error_In with k.
    + intros E0. lia.
  - change (npos =? npos) with true. exists false. split; [reflexivity|].
    split; [|trivial]. split; [discriminate|].
    intros Hin. now apply index_of_none in E.
Qed.

Lemma contains_iff_occurs_witness :
  valid (std "abc")
  /\ contains (std "abc") "a" = Val true
  /\ contains (std "abc") "d" = Val false.
Proof.
  assert (Hv : valid (std "abc")) by (unfold valid; simpl; size_t_arith).
  destruct (contains_iff_occurs (std "abc") "a" Hv) as (b & Hb & Hiff & _).
  split; [exact Hv|]. split; [|reflexivity].
  rewrite Hb. f_equal. apply Hiff. simpl. auto.
Defined.

(** ** The longest prefix that satisfies a predicate *)

Lemma substr_all v : in_range (len v) -> substr v 0 npos = v.
Proof.
  intros R. rewrite substr_unfold by (trivial; size_t_arith).
  rewrite npos_eq.
  replace (Z.min 0 (len v)) with 0 by size_t_arith.
  rewrite ptr_add_0, Z.sub_0_r.
  replace (Z.min _ (len v)) with (len v) by size_t_arith.
  now destruct v.
Qed.

Lemma take_while_firstn pred l r :
  (forall k x, (k < r)%nat -> nth_error l k = Some x -> pred x = true) ->
  (r <= length l)%nat ->
  (forall x, nth_error l r = Some x -> pred x = false) ->
  take_while pred l = firstn r l.
Proof.
  revert r. induction l as [|y l IH]; intros r Hall Hr Hstop.
  - now rewrite firstn_nil.
  - destruct r as [|r]; simpl.
    + now rewrite (Hstop y eq_refl).
    + rewrite (Hall O y ltac:(lia) eq_refl). f_equal. apply IH.
      * intros k x Hk Hx. apply (Hall (S k) x); [lia|exact Hx].
      * simpl in Hr. lia.
      * intros x Hx. apply Hstop. exact Hx.
Qed.

(** [take_front_while(pred)] returns the longest prefix of the view whose
    characters all satisfy the predicate: the whole view when all do, the
    empty prefix when the first one does not. *)
Theorem take_front_while_longest_prefix (v : string_ref) (pred : ascii -> bool) :
  valid v ->
  exists t, take_front_while v pred = Val t
            /\ valid t
            /\ ps t = ps v
            /\ chars t = take_while pred (chars v)
            /\ (forallb pred (chars v) = true -> t = v).
Proof.
  intros Hv. pose proof (valid_len_bound _ Hv) as B.
  pose proof (valid_in_range _ Hv) as R.
  pose proof (chars_length _ Hv) as L.
  unfold take_front_while, find_if_not, find_if.
  assert (Hwin : forall n, 0 <= n <= len v ->
            substr v 0 n = mk_string_ref (ps v) n
            /\ valid (substr v 0 n)
            /\ chars (substr v 0 n) = firstn (Z.to_nat n) (chars v)).
  { intros n Hn. rewrite substr_unfold by size_t_arith.
    replace (Z.min 0 (len v)) with 0 by lia.
    rewrite Z.sub_0_r. replace (Z.min n (len v)) with n by lia.
    split; [now rewrite ptr_add_0|]. split.
    - apply window_valid; trivial; lia.
    - rewrite window_chars by (trivial; lia). unfold range. simpl.
      now rewrite Z.sub_0_r. }
  assert (Hall : forall r, (forall k, 0 <= k < r ->
                   ~ holds_at v (fun c => negb (pred c)) k) ->
                 r <= len v ->
                 forall k x, (k < Z.to_nat r)%nat ->
                   nth_error (chars v) k = Some x -> pred x = true).
  { intros r Hnone Hr k x Hk Hx. destruct (pred x) eqn:E; trivial.
    exfalso. apply (Hnone (Z.of_nat k)); [lia|].
    exists x. rewrite Nat2Z.id. split; [exact Hx|]. now rewrite E. }
  destruct (Z.geb_spec 0 (len v)) as [E|E].
  - cbn [bind]. exists v. assert (E0 : len v = 0) by lia.
    assert (Hnil : chars v = []) by (destruct (chars v); [trivial|simpl in L; lia]).
    split.
    + f_equal. now apply substr_all.
    + rewrite Hnil. repeat split; trivial; apply Hv.
  - rewrite wrap_small by size_t_arith.
    destruct (find_if_loop_first v (fun c => negb (pred c)) Hv
                (Z.to_nat (len v - 0)) 0) as (r & -> & Hr); try lia.
    cbn [bind]. destruct Hr as [[-> Hnone]|(Hrange & (x & Hx & Hpx) & Hbefore)].
    + exists v. split.
      * f_equal. now apply substr_all.
      * split; [exact Hv|]. split; [reflexivity|]. split; [|reflexivity].
        rewrite (take_while_firstn pred (chars v) (length (chars v))).
        -- now rewrite firstn_all.
        -- intros k y Hk Hy. apply (Hall (len v) Hnone ltac:(lia) k y);
             [lia|exact Hy].
        -- lia.
        -- intros y Hy. assert (nth_error (chars v) (length (chars v)) = None)
             by (apply nth_error_None; lia). congruence.
    + destruct (Hwin r ltac:(lia)) as (Hs & Hvs & Hcs).
      exists (substr v 0 r). split; [reflexivity|]. split; [exact Hvs|].
      split; [now rewrite Hs|]. split.
      * rewrite Hcs. symmetry. apply take_while_firstn.
        -- apply (Hall r Hbefore). lia.
        -- lia.
        -- intros y Hy. rewrite Hx in Hy. injection Hy as <-.
           now destruct (pred x).
      * intros Hfor. exfalso. rewrite forallb_forall in Hfor.
        specialize (Hfor x (nth_error_In _ _ Hx)).
        rewrite Hfor in Hpx. discriminate.
Qed.

Lemma take_front_while_longest_prefix_witness :
  valid (std "abcdefgh")
  /\ (t <- take_front_while (std "abcdefgh")
            (fun c => (N_of_ascii c <? N_of_ascii "c")%N) ;;
      Val (chars t)) = Val (list_ascii_of_string "ab").
Proof.
  assert (Hv : valid (std "abcdefgh")) by (unfold valid; simpl; size_t_arith).
  destruct (take_front_while_longest_prefix (std "abcdefgh")
              (fun c => (N_of_ascii c <? N_of_ascii "c")%N) Hv)
    as (t & Ht & _ & _ & Hc & _).
  split; [exact Hv|]. rewrite Ht. cbn [bind]. rewrite Hc. reflexivity.
Defined.

(** ** Prefixes and suffixes *)

Lemma firstn_is_prefix (l p : list ascii) :
  firstn (length p) l = p <-> exists rest, l = p ++ rest.
Proof.
  split.
  - intros H. exists (skipn (length p) l).
    now rewrite <- H at 1; rewrite firstn_skipn.
  - intros [rest ->]. rewrite firstn_app, firstn_all, Nat.sub_diag. simpl.
    apply app_nil_r.
Qed.

Lemma skipn_is_suffix (l s : list ascii) :
  (length s <= length l)%nat ->
  (skipn (length l - length s) l = s <-> exists front, l = front ++ s).
Proof.
  intros Hle. split.
  - intros H. exists (firstn (length l - length s) l).
    now rewrite <- H at 2; rewrite firstn_skipn.
  - intros [front ->]. rewrite length_app.
    replace (length front + length s - length s)%nat with (length front) by lia.
    rewrite skipn_app, skipn_all, Nat.sub_diag. reflexivity.
Qed.

(** [starts_with(prefix)] is true exactly when the characters of the view
    begin with those of [prefix]; an empty prefix always matches and a
    longer one never does. *)
Theorem starts_with_iff_prefix (v prefix : string_ref) :
  valid v -> valid prefix ->
  exists b, starts_with v prefix = Val b
            /\ (b = true <-> exists rest, chars v = chars prefix ++ rest)
            /\ (len prefix = 0 -> b = true)
            /\ (len v < len prefix -> b = false).
Proof.
  intros Hv Hp. pose proof (valid_len_bound _ Hv) as B.
  pose proof (valid_len_bound _ Hp) as Bp.
  pose proof (chars_length _ Hv) as L. pose proof (chars_length _ Hp) as Lp.
  unfold starts_with. destruct (Z.leb_spec (len prefix) (len v)) as [E|E].
  - rewrite memCompare_chars by (trivial; lia). cbn [bind].
    eexists. split; [reflexivity|].
    rewrite (firstn_all2 (chars prefix)) by lia.
    assert (Hiff : (lex_cmp (firstn (Z.to_nat (len prefix)) (chars v))
                      (chars prefix) =? 0) = true
                   <-> exists rest, chars v = chars prefix ++ rest).
    { rewrite Z.eqb_eq, lex_cmp_zero by (rewrite length_firstn; lia).
      replace (Z.to_nat (len prefix)) with (length (chars prefix)) by lia.
      apply firstn_is_prefix. }
    split; [exact Hiff|]. split; [|lia].
    intros E0. apply Hiff. exists (chars v).
    destruct (chars prefix); [reflexivity|simpl in Lp; lia].
  - exists false. split; [reflexivity|]. split; [|split; [lia|trivial]].
    split; [discriminate|]. intros [rest Hr].
    apply (f_equal (@length ascii)) in Hr. rewrite length_app in Hr. lia.
Qed.

Lemma starts_with_iff_prefix_witness :
  (valid (std "abc") /\ valid (std "ab"))
  /\ starts_with (std "abc") (std "ab") = Val true
  /\ starts_with (std "abc") (std "ac") = Val false
  /\ starts_with (std "abc") (std "") = Val true.
Proof.
  assert (Hv : valid (std "abc")) by (unfold valid; simpl; size_t_arith).
  assert (Hp : valid (std "ab")) by (unfold valid; simpl; size_t_arith).
  destruct (starts_with_iff_prefix (std "abc") (std "ab") Hv Hp)
    as (b & Hb & Hiff & _).
  split; [auto|]. split; [|split; reflexivity].
  rewrite Hb. f_equal. apply Hiff. now exists (list_ascii_of_string "c").
Defined.

(** [ends_with(suffix)] is true exactly when the characters of the view end
    with those of [suffix]; an empty suffix always matches and a longer one
    never does. *)
Theorem ends_with_iff_suffix (v suffix : string_ref) :
  valid v -> valid suffix ->
  exists b, ends_with v suffix = Val b
            /\ (b = true <-> exists front, chars v = front ++ chars suffix)
            /\ (len suffix = 0 -> b = true)
            /\ (len v < len suffix -> b = false).
Proof.
  intros Hv Hs. pose proof (valid_len_bound _ Hv) as B.
  pose proof (valid_len_bound _ Hs) as Bs.
  pose proof (chars_length _ Hv) as L. pose proof (chars_length _ Hs) as Ls.
  unfold ends_with. destruct (Z.leb_spec (len suffix) (len v)) as [E|E].
  - assert (Hptr : ptr_sub (end_ v) (len suffix)
                   = ptr_add (ps v) (len v - len suffix)).
    { unfold end_. destruct (ps v); simpl; [reflexivity|f_equal; lia]. }
    rewrite Hptr.
    set (w := mk_string_ref (ptr_add (ps v) (len v - len suffix)) (len suffix)).
    assert (Hw : valid w) by (apply window_valid; trivial; lia).
    assert (Hcw : chars w = skipn (length (chars v) - length (chars suffix))
                              (chars v)).
    { unfold w. rewrite window_chars by (trivial; lia). unfold range.
      replace (Z.to_nat (len v - len suffix))
        with (length (chars v) - length (chars suffix))%nat by lia.
      apply firstn_all2. rewrite length_skipn. lia. }
    change (ptr_add (ps v) (len v - len suffix)) with (ps w).
    rewrite memCompare_chars by (trivial; simpl; lia). cbn [bind].
    eexists. split; [reflexivity|].
    rewrite (firstn_all2 (chars suffix)) by lia.
    rewrite (firstn_all2 (chars w)) by (rewrite Hcw, length_skipn; lia).
    assert (Hiff : (lex_cmp (chars w) (chars suffix) =? 0) = true
                   <-> exists front, chars v = front ++ chars suffix).
    { rewrite Z.eqb_eq, lex_cmp_zero by (rewrite Hcw, length_skipn; lia).
      rewrite Hcw. apply skipn_is_suffix. lia. }
    split; [exact Hiff|]. split; [|lia].
    intros E0. apply Hiff. exists (chars v).
    destruct (chars suffix); [now rewrite app_nil_r|simpl in Ls; lia].
  - exists false. split; [reflexivity|]. split; [|split; [lia|trivial]].
    split; [discriminate|]. intros [front Hr].
    apply (f_equal (@length ascii)) in Hr. rewrite length_app in Hr. lia.
Qed.

Lemma ends_with_iff_suffix_witness :
  (valid (std "abc") /\ valid (std "bc"))
  /\ ends_with (std "abc") (std "bc") = Val true
  /\ ends_with (std "abc") (std "dc") = Val false
  /\ ends_with (std "abc") (std "") = Val true.
Proof.
  assert (Hv : valid (std "abc")) by (unfold valid; simpl; size_t_arith).
  assert (Hs : valid (std "bc")) by (unfold valid; simpl; size_t_arith).
  destruct (ends_with_iff_suffix (std "abc") (std "bc") Hv Hs)
    as (b & Hb & Hiff & _).
  split; [auto|]. split; [|split; reflexivity].
  rewrite Hb. f_equal. apply Hiff. now exists (list_ascii_of_string "a").
Defined.

(** ** Taking and dropping *)

Lemma ptr_add_add p a b : ptr_add (ptr_add p a) b = ptr_add p (a + b).
Proof. destruct p; simpl; [reflexivity|f_equal; lia]. Qed.

Lemma drop_front_window v n :
  in_range (len v) -> 0 <= n <= len v ->
  drop_front v n = Val (mk_string_ref (ptr_add (ps v) n) (len v - n)).
Proof.
  intros R Hn. unfold drop_front, assert.
  replace (n <=? len v) with true by (symmetry; apply Z.leb_le; lia).
  cbn [bind]. rewrite substr_unfold by size_t_arith.
  unfold capacity. rewrite npos_eq.
  replace (Z.min n (len v)) with n by lia.
  now replace (Z.min _ (len v - n)) with (len v - n) by size_t_arith.
Qed.

Lemma drop_back_window v n :
  in_range (len v) -> 0 <= n <= len v ->
  drop_back v n = Val (mk_string_ref (ps v) (len v - n)).
Proof.
  intros R Hn. unfold drop_back, assert.
  replace (n <=? len v) with true by (symmetry; apply Z.leb_le; lia).
  cbn [bind]. rewrite (wrap_small (len v - n)) by size_t_arith.
  rewrite substr_unfold by size_t_arith.
  replace (Z.min 0 (len v)) with 0 by size_t_arith.
  rewrite ptr_add_0, Z.sub_0_r.
  now replace (Z.min (len v - n) (len v)) with (len v - n) by lia.
Qed.

Lemma prefix_window v n :
  valid v -> 0 <= n <= len v ->
  valid (mk_string_ref (ps v) n)
  /\ chars (mk_string_ref (ps v) n) = firstn (Z.to_nat n) (chars v).
Proof.
  intros Hv Hn. rewrite <- (ptr_add_0 (ps v)). split.
  - apply window_valid; trivial; lia.
  - rewrite window_chars by (trivial; lia). unfold range. simpl.
    now rewrite Z.sub_0_r.
Qed.

Lemma suffix_window v n :
  valid v -> 0 <= n <= len v ->
  valid (mk_string_ref (ptr_add (ps v) n) (len v - n))
  /\ chars (mk_string_ref (ptr_add (ps v) n) (len v - n))
     = skipn (Z.to_nat n) (chars v).
Proof.
  intros Hv Hn. pose proof (chars_length _ Hv) as L. split.
  - apply window_valid; trivial; lia.
  - rewrite window_chars by (trivial; lia). unfold range.
    apply firstn_all2. rewrite length_skipn. lia.
Qed.

(** [take_front(n)] and [take_back(n)] return the first, respectively last,
    [min(n, length)] characters: they clamp, and [take_back] never fails
    although it is written with [drop_front]. *)
Theorem take_front_back_clamp (v : string_ref) (n : Z) :
  valid v -> in_range n ->
  valid (take_front v n)
  /\ len (take_front v n) = Z.min n (len v)
  /\ chars (take_front v n) = firstn (Z.to_nat n) (chars v)
  /\ exists t, take_back v n = Val t
               /\ valid t
               /\ len t = Z.min n (len v)
               /\ chars t = skipn (length (chars v) - Z.to_nat n) (chars v).
Proof.
  intros Hv Hn. pose proof (valid_len_bound _ Hv) as B.
  pose proof (valid_in_range _ Hv) as R.
  pose proof (chars_length _ Hv) as L.
  unfold take_front, take_back.
  destruct (prefix_window v (Z.min n (len v)) Hv) as [V1 C1];
    [unfold in_range in *; lia|].
  split; [exact V1|]. split; [reflexivity|]. split.
  - rewrite C1. destruct (Z.le_gt_cases n (len v)).
    + now replace (Z.min n (len v)) with n by lia.
    + replace (Z.min n (len v)) with (len v) by lia.
      now rewrite !firstn_all2 by lia.
  - destruct (Z.leb_spec n (len v)) as [E|E].
    + rewrite (wrap_small (len v - n)) by size_t_arith.
      rewrite drop_front_window by (trivial; unfold in_range in *; lia).
      destruct (suffix_window v (len v - n) Hv) as [V2 C2];
        [unfold in_range in *; lia|].
      eexists. split; [reflexivity|]. split; [exact V2|]. split.
      * simpl. lia.
      * rewrite C2. f_equal. unfold in_range in *. lia.
    + exists v. split; [reflexivity|]. split; [exact Hv|]. split; [lia|].
      replace (length (chars v) - Z.to_nat n)%nat with O by lia. reflexivity.
Qed.

Lemma take_front_back_clamp_witness :
  (valid (std "abcdefgh") /\ in_range 100)
  /\ chars (take_front (std "abcdefgh") 100) = list_ascii_of_string "abcdefgh"
  /\ take_back (std "abcdefgh") 100 = Val (std "abcdefgh")
  /\ (t <- take_back (std "abcdefgh") 2 ;; Val (chars t))
     = Val (list_ascii_of_string "gh").
Proof.
  assert (Hv : valid (std "abcdefgh")) by (unfold valid; simpl; size_t_arith).
  assert (Hn : in_range 100) by size_t_arith.
  destruct (take_front_back_clamp (std "abcdefgh") 100 Hv Hn)
    as (_ & _ & Hc & _).
  split; [auto|]. split; [|split; reflexivity].
  rewrite Hc. reflexivity.
Defined.

(** For [n <= length], what [take_front(n)] keeps and what [drop_front(n)]
    keeps make up the view, in this order, and so do [drop_back(n)] and
    [take_back(n)]. *)
Theorem take_drop_partition (v : string_ref) (n : Z) :
  valid v -> 0 <= n <= len v ->
  exists d b t,
    drop_front v n = Val d /\ drop_back v n = Val b /\ take_back v n = Val t
    /\ chars (take_front v n) ++ chars d = chars v
    /\ chars b ++ chars t = chars v
    /\ len (take_front v n) + len d = len v
    /\ len b + len t = len v.
Proof.
  intros Hv Hn. pose proof (valid_len_bound _ Hv) as B.
  pose proof (valid_in_range _ Hv) as R.
  pose proof (chars_length _ Hv) as L.
  rewrite drop_front_window, drop_back_window by assumption.
  unfold take_back.
  replace (n <=? len v) with true by (symmetry; apply Z.leb_le; lia).
  rewrite (wrap_small (len v - n)) by size_t_arith.
  rewrite drop_front_window by (trivial; lia).
  do 3 eexists. split; [reflexivity|]. split; [reflexivity|].
  split; [reflexivity|].
  unfold take_front. replace (Z.min n (len v)) with n by lia.
  destruct (prefix_window v n Hv Hn) as [_ ->].
  destruct (suffix_window v n Hv Hn) as [_ ->].
  destruct (prefix_window v (len v - n) Hv ltac:(lia)) as [_ ->].
  destruct (suffix_window v (len v - n) Hv ltac:(lia)) as [_ ->].
  rewrite !firstn_skipn. simpl. repeat split; lia.
Qed.

Lemma take_drop_partition_witness :
  (valid (std "abcdefgh") /\ 0 <= 3 <= len (std "abcdefgh"))
  /\ (d <- drop_front (std "abcdefgh") 3 ;;
      Val (chars (take_front (std "abcdefgh") 3) ++ chars d))
     = Val (chars (std "abcdefgh")).
Proof.
  assert (Hv : valid (std "abcdefgh")) by (unfold valid; simpl; size_t_arith).
  assert (Hn : 0 <= 3 <= len (std "abcdefgh")) by (simpl; lia).
  destruct (take_drop_partition (std "abcdefgh") 3 Hv Hn)
    as (d & b & t & Hd & _ & _ & Hc & _).
  split; [auto|]. rewrite Hd. cbn [bind]. now rewrite Hc.
Defined.

(** Dropping [a] characters and then [b] is dropping [a + b], also in the
    failing cases: both sides stop on the assertion exactly when
    [a + b > length]. *)
Theorem drop_front_twice (v : string_ref) (a b : Z) :
  in_range (len v) -> in_range a -> in_range b -> in_range (a + b) ->
  (x <- drop_front v a ;; drop_front x b) = drop_front v (a + b)
  /\ (len v < a + b -> drop_front v (a + b) = Abort).
Proof.
  intros R Ha Hb Hab.
  assert (Hout : forall w k, len w < k -> drop_front w k = Abort).
  { intros w k Hk. unfold drop_front, assert.
    now replace (k <=? len w) with false by (symmetry; apply Z.leb_gt; lia). }
  split; [|apply Hout].
  destruct (Z.le_gt_cases a (len v)) as [E|E].
  - rewrite drop_front_window by (trivial; unfold in_range in *; lia).
    cbn [bind]. destruct (Z.le_gt_cases (a + b) (len v)) as [E'|E'].
    + rewrite !drop_front_window
        by (simpl; unfold in_range in *; lia).
      simpl. rewrite ptr_add_add. do 2 f_equal. lia.
    + rewrite !Hout by (simpl; unfold in_range in *; lia). reflexivity.
  - rewrite !Hout by (unfold in_range in *; lia). reflexivity.
Qed.

Lemma drop_front_twice_witness :
  (in_range (len (std "abcdefgh")) /\ in_range 2 /\ in_range 3
   /\ in_range (2 + 3))
  /\ (x <- drop_front (std "abcdefgh") 2 ;; drop_front x 3)
     = drop_front (std "abcdefgh") 5
  /\ (x <- drop_front (std "abcdefgh") 2 ;; y <- drop_front x 3 ;;
      Val (chars y)) = Val (list_ascii_of_string "fgh").
Proof.
  assert (R : in_range (len (std "abcdefgh"))) by (simpl; size_t_arith).
  assert (H2 : in_range 2) by size_t_arith.
  assert (H3 : in_range 3) by size_t_arith.
  assert (H5 : in_range (2 + 3)) by size_t_arith.
  destruct (drop_front_twice (std "abcdefgh") 2 3 R H2 H3 H5) as [H _].
  split; [auto|]. split; [exact H|reflexivity].
Defined.

(** [slice], [substr] and [take_front] agree where they overlap: for
    [start <= stop], [slice(start, stop)] is [substr(start, stop - start)],
    and [take_front(n)] is [substr(0, n)] and [slice(0, n)]. *)
Theorem slice_substr_take_front_agree (v : string_ref) (start stop : Z) :
  in_range (len v) -> in_range start -> in_range stop -> start <= stop ->
  slice v start stop = substr v start (stop - start)
  /\ take_front v stop = substr v 0 stop
  /\ take_front v stop = slice v 0 stop.
Proof.
  intros R Hs He Hle.
  rewrite !slice_unfold, !substr_unfold by size_t_arith.
  unfold take_front.
  replace (Z.min 0 (len v)) with 0 by size_t_arith.
  replace (Z.min (Z.min 0 stop) (len v)) with 0 by size_t_arith.
  rewrite ptr_add_0.
  split; [|split]; f_equal; try (f_equal; unfold in_range in *; lia);
    unfold in_range in *; lia.
Qed.

Lemma slice_substr_take_front_agree_witness :
  (in_range (len (std "abcdefgh")) /\ in_range 2 /\ in_range 6 /\ 2 <= 6)
  /\ slice (std "abcdefgh") 2 6 = substr (std "abcdefgh") 2 4.
Proof.
  assert (R : in_range (len (std "abcdefgh"))) by (simpl; size_t_arith).
  assert (H2 : in_range 2) by size_t_arith.
  assert (H6 : in_range 6) by size_t_arith.
  assert (Hle : 2 <= 6) by lia.
  destruct (slice_substr_take_front_agree (std "abcdefgh") 2 6 R H2 H6 Hle)
    as [H _].
  split; [auto|]. exact H.
Defined.

(** ** Checked element access *)

(** [operator[]] returns the character at [pos] when [pos < length] and
    stops on its assertion otherwise; [front()] and [back()] stop on an
    empty view and are the first and the last character of any other. *)
Theorem element_access_checked (v : string_ref) (pos : Z) :
  valid v -> in_range pos ->
  (pos < len v ->
   exists x, index v pos = Val x
             /\ nth_error (chars v) (Z.to_nat pos) = Some x)
  /\ (len v <= pos -> index v pos = Abort)
  /\ (len v = 0 -> front v = Abort /\ back v = Abort)
  /\ (0 < len v ->
      exists x y, front v = Val x /\ back v = Val y
                  /\ nth_error (chars v) O = Some x
                  /\ nth_error (chars v) (Z.to_nat (len v - 1)) = Some y).
Proof.
  intros Hv Hp. pose proof (valid_len_bound _ Hv) as B.
  split; [|split; [|split]].
  - intros Hlt. destruct (index_chars v pos Hv) as (x & Hx & Hi);
      [unfold in_range in *; lia|]. now exists x.
  - intros Hge. unfold index, assert.
    now replace (pos <? len v) with false by (symmetry; apply Z.ltb_ge; lia).
  - intros E. unfold front, back, empty, assert. rewrite E. split; reflexivity.
  - intros Hpos. unfold front, back, empty, assert.
    replace (len v =? 0) with false by (symmetry; apply Z.eqb_neq; lia).
    cbn [negb bind]. rewrite wrap_small by size_t_arith.
    destruct (read_chars v 0 Hv) as (x & Hx & ->); [lia|].
    destruct (read_chars v (len v - 1) Hv) as (y & Hy & ->); [lia|].
    exists x, y. repeat split; trivial.
Qed.

Lemma element_access_checked_witness :
  (valid (std "abc") /\ in_range 3)
  /\ index (std "abc") 1 = Val "b"%char
  /\ index (std "abc") 3 = Abort
  /\ front (std "") = Abort.
Proof.
  assert (Hv : valid (std "abc")) by (unfold valid; simpl; size_t_arith).
  assert (H3 : in_range 3) by size_t_arith.
  destruct (element_access_checked (std "abc") 3 Hv H3) as (_ & Hout & _).
  split; [auto|]. split; [reflexivity|]. split; [|reflexivity].
  apply Hout. simpl. lia.
Defined.

(** ** Construction from strings *)

Lemma firstn_app_exact {A : Type} (l r : list A) :
  firstn (length l) (l ++ r) = l.
Proof.
  rewrite firstn_app, firstn_all, Nat.sub_diag. simpl. apply app_nil_r.
Qed.

(** A view built from a [std::string] gives the string back: [to_string]
    of [string_ref(s)] is [s], whatever characters [s] holds.  With a count
    the view is the first [min(n, size)] characters.  Both views are valid,
    given that the string with its terminator is an object of admissible
    size. *)
Theorem owned_string_round_trip (s : list ascii) (n : Z) :
  in_range n ->
  to_string (string_ref_std s) = Val s
  /\ chars (string_ref_std s) = s
  /\ len (string_ref_std_n s n) = Z.min n (Z.of_nat (length s))
  /\ to_string (string_ref_std_n s n) = Val (firstn (Z.to_nat n) s)
  /\ (Z.of_nat (length s) < ptrdiff_max ->
      valid (string_ref_std s) /\ valid (string_ref_std_n s n)).
Proof.
  intros Hn.
  assert (Hload : forall k, (k <= length s)%nat ->
            load (c_str s) (Z.of_nat k) = Val (firstn k s)).
  { intros k Hk. unfold load, c_str.
    replace ((0 <=? 0) && (0 <=? Z.of_nat k)
             && (0 + Z.of_nat k <=? Z.of_nat (length (s ++ [NUL]))))
      with true
      by (symmetry; rewrite !andb_true_iff, !Z.leb_le, length_app; simpl; lia).
    simpl (skipn _ _). rewrite Nat2Z.id.
    rewrite firstn_app. replace (k - length s)%nat with O by lia.
    simpl. now rewrite app_nil_r. }
  assert (Hlen : len (string_ref_std_n s n) = Z.min n (Z.of_nat (length s))).
  { unfold string_ref_std_n. simpl.
    destruct (Z.ltb_spec n (Z.of_nat (length s))); lia. }
  split; [|split; [|split; [exact Hlen|split]]].
  - unfold to_string, string_ref_std. simpl ps. simpl len.
    rewrite Hload by lia. now rewrite firstn_all.
  - unfold chars, string_ref_std, c_str. simpl. rewrite Nat2Z.id.
    apply firstn_app_exact.
  - unfold to_string. rewrite Hlen.
    replace (ps (string_ref_std_n s n)) with (c_str s) by reflexivity.
    replace (Z.min n (Z.of_nat (length s)))
      with (Z.of_nat (Nat.min (Z.to_nat n) (length s)))
      by (unfold in_range in *; lia).
    rewrite Hload by lia. f_equal.
    destruct (Nat.le_gt_cases (Z.to_nat n) (length s)).
    + now replace (Nat.min (Z.to_nat n) (length s)) with (Z.to_nat n) by lia.
    + replace (Nat.min (Z.to_nat n) (length s)) with (length s) by lia.
      now rewrite !firstn_all2 by lia.
  - intros Hsize. unfold valid. rewrite Hlen.
    unfold string_ref_std, string_ref_std_n, c_str. simpl.
    rewrite length_app. simpl. unfold in_range in *. lia.
Qed.

Lemma owned_string_round_trip_witness :
  in_range 2
  /\ to_string (string_ref_std (list_ascii_of_string "abc"))
     = Val (list_ascii_of_string "abc")
  /\ to_string (string_ref_std_n (list_ascii_of_string "abc") 2)
     = Val (list_ascii_of_string "ab").
Proof.
  assert (H2 : in_range 2) by size_t_arith.
  destruct (owned_string_round_trip (list_ascii_of_string "abc") 2 H2)
    as (H & _ & _ & Hn & _).
  split; [exact H2|]. split; [exact H | exact Hn].
Defined.

Lemma until_nul_find_nul l t i :
  until_nul l = Some t ->
  find_nul l i = Val (i + Z.of_nat (length t)) /\ firstn (length t) l = t.
Proof.
  revert t i. induction l as [|c l IH]; intros t i; simpl; [discriminate|].
  destruct (Ascii.eqb c NUL).
  - intros [= <-]. simpl. split; [f_equal; lia|reflexivity].
  - destruct (until_nul l) as [t'|]; [|discriminate]. intros [= <-].
    destruct (IH t' (i + 1) eq_refl) as [-> Hf]. simpl.
    split; [f_equal; lia|now rewrite Hf].
Qed.

Lemma until_nul_terminated s : exists t, until_nul (s ++ [NUL]) = Some t.
Proof.
  induction s as [|c s [t IH]]; simpl.
  - now exists [].
  - destruct (Ascii.eqb c NUL); [now exists []|].
    rewrite IH. now exists (c :: t).
Qed.

(** [string_ref(const char *str)] on the [c_str()] of a string views the
    characters before the first terminator: the whole string when it holds
    none, where the result is the view [string_ref(s)] builds, and a
    proper prefix otherwise.  [withNullAsEmpty] does the same on a pointer
    that is not null. *)
Theorem cstr_constructor_stops_at_terminator (s : list ascii) :
  exists v, string_ref_cstr (c_str s) = Val v
            /\ withNullAsEmpty (c_str s) = Val v
            /\ ps v = c_str s
            /\ until_nul (s ++ [NUL]) = Some (chars v)
            /\ (~ In NUL s -> v = string_ref_std s)
            /\ (In NUL s -> len v < Z.of_nat (length s)).
Proof.
  destruct (until_nul_terminated s) as [t Ht].
  destruct (until_nul_find_nul _ _ 0 Ht) as [Hfind Hfirst].
  assert (Hc : string_ref_cstr (c_str s)
               = Val (mk_string_ref (c_str s) (Z.of_nat (length t)))).
  { unfold string_ref_cstr, c_str, strlen.
    replace ((0 <=? 0) && (0 <=? Z.of_nat (length (s ++ [NUL])))) with true
      by (symmetry; rewrite andb_true_iff, !Z.leb_le; lia).
    simpl (skipn _ _). now rewrite Hfind. }
  exists (mk_string_ref (c_str s) (Z.of_nat (length t))).
  split; [exact Hc|]. split; [exact Hc|]. split; [reflexivity|].
  split; [|split].
  - rewrite Ht. f_equal. unfold chars, c_str. simpl. now rewrite Nat2Z.id.
  - intros Hn. rewrite until_nul_app in Ht by assumption.
    injection Ht as <-. reflexivity.
  - intros Hin. simpl. apply Nat2Z.inj_lt.
    clear Hfind Hfirst Hc. revert t Ht.
    induction s as [|c s IH]; intros t Ht; [destruct Hin|]. simpl in Ht.
    destruct (Ascii.eqb_spec c NUL) as [->|Hne].
    + injection Ht as <-. simpl. lia.
    + destruct (until_nul (s ++ [NUL])) as [t'|] eqn:E; [|discriminate].
      injection Ht as <-. simpl.
      destruct Hin as [Hin|Hin]; [congruence|].
      specialize (IH Hin t' eq_refl). lia.
Qed.

(** ** Hashing, appending and printing *)

(** Views that are [equals] have the same hash, whatever buffers they point
    into and whatever hash function the standard library uses; the hash is
    that of the owned copy [to_string()]. *)
Theorem hash_respects_equals (std_hash : list ascii -> Z) (a b : string_ref) :
  valid a -> valid b -> equals a b = Val true ->
  Hash std_hash a = Hash std_hash b
  /\ Hash std_hash a = Val (std_hash (chars a))
  /\ Hash std_hash a = (s <- to_string a ;; Val (std_hash s)).
Proof.
  intros Ha Hb He.
  destruct (equals_chars a b Ha Hb) as (e & He' & Hiff).
  rewrite He in He'. injection He' as <-.
  assert (Hc : chars a = chars b) by now apply Hiff.
  unfold Hash, to_string, ptr, size. rewrite !load_chars by assumption.
  cbn [bind]. now rewrite Hc.
Qed.

Lemma hash_respects_equals_witness :
  (valid (std "abc")
   /\ valid (take_front (std "abcd") 3)
   /\ equals (std "abc") (take_front (std "abcd") 3) = Val true)
  /\ Hash (fun s => Z.of_nat (length s)) (std "abc")
     = Hash (fun s => Z.of_nat (length s)) (take_front (std "abcd") 3).
Proof.
  assert (Ha : valid (std "abc")) by (unfold valid; simpl; size_t_arith).
  assert (Hb : valid (take_front (std "abcd") 3))
    by (unfold valid; simpl; size_t_arith).
  assert (He : equals (std "abc") (take_front (std "abcd") 3) = Val true)
    by reflexivity.
  destruct (hash_respects_equals (fun s => Z.of_nat (length s)) _ _ Ha Hb He)
    as [H _].
  split; [auto|]. exact H.
Defined.

(** [operator+] appends exactly the characters of the view, so appending
    the two parts of a view split at [n <= length] is appending the view;
    [operator+=] and [operator<<] append the same characters. *)
Theorem append_appends_view (stdstr : list ascii) (v : string_ref) (n : Z) :
  valid v -> 0 <= n <= len v ->
  op_plus stdstr v = Val (stdstr ++ chars v)
  /\ (d <- drop_front v n ;;
      h <- op_plus stdstr (take_front v n) ;;
      op_plus h d) = op_plus stdstr v
  /\ op_plus_assign stdstr v = op_plus stdstr v
  /\ op_shl stdstr v = op_plus stdstr v
  /\ op_plus [] v = to_string v.
Proof.
  intros Hv Hn. pose proof (valid_in_range _ Hv) as R.
  assert (Happ : forall s w, valid w -> op_plus s w = Val (s ++ chars w)).
  { intros s w Hw. unfold op_plus, ptr, size. now rewrite load_chars. }
  split; [now apply Happ|]. split; [|split; [reflexivity|split]].
  - rewrite drop_front_window by assumption. cbn [bind].
    unfold take_front. replace (Z.min n (len v)) with n by lia.
    destruct (prefix_window v n Hv Hn) as [V1 C1].
    destruct (suffix_window v n Hv Hn) as [V2 C2].
    rewrite (Happ _ _ V1). cbn [bind]. rewrite (Happ _ _ V2), (Happ _ _ Hv).
    rewrite C1, C2, <- app_assoc. now rewrite firstn_skipn.
  - reflexivity.
  - rewrite (Happ _ _ Hv). unfold to_string. now rewrite load_chars.
Qed.

Lemma append_appends_view_witness :
  (valid (std "qw") /\ 0 <= 1 <= len (std "qw"))
  /\ op_plus (list_ascii_of_string "abc") (std "qw")
     = Val (list_ascii_of_string "abcqw").
Proof.
  assert (Hv : valid (std "qw")) by (unfold valid; simpl; size_t_arith).
  assert (Hn : 0 <= 1 <= len (std "qw")) by (simpl; lia).
  destruct (append_appends_view (list_ascii_of_string "abc") (std "qw") 1
              Hv Hn) as [H _].
  split; [auto|]. rewrite H. reflexivity.
Defined.

(** ** Edit distance without regard to case *)

Lemma lowered_valid v : valid v -> valid (lowered v).
Proof.
  unfold valid, lowered. destruct (ps v); simpl; trivial.
  now rewrite length_map.
Qed.

Lemma lowered_chars v : chars (lowered v) = map tolower (chars v).
Proof.
  unfold chars, lowered. destruct (ps v); simpl; trivial.
  now rewrite skipn_map, firstn_map.
Qed.

Lemma lowered_index v pos :
  index (lowered v) pos = (x <- index v pos ;; Val (tolower x)).
Proof.
  unfold index, lowered, read. simpl len.
  destruct (assert (pos <? len v)); cbn [bind]; trivial.
  destruct (ps v) as [|b o]; simpl; trivial. rewrite length_map.
  destruct ((0 <=? o + pos) && (o + pos <? Z.of_nat (length b))); trivial.
  rewrite nth_error_map. now destruct (nth_error b _).
Qed.

Lemma fill_row_lowered s1 s2 i dpPrev :
  forall n j dp,
    fill_row false s1 s2 i n j dp dpPrev
    = fill_row true (lowered s1) (lowered s2) i n j dp dpPrev.
Proof.
  induction n as [|n IH]; intros j dp; cbn [fill_row]; trivial.
  rewrite !lowered_index.
  destruct (index s1 (wrap (i - 1))) as [a| |]; cbn [bind]; trivial.
  destruct (index s2 (wrap (j - 1))) as [b| |]; cbn [bind]; trivial.
  unfold same_char.
  destruct (Ascii.eqb (tolower a) (tolower b)).
  - destruct (vec_get dpPrev (wrap (j - 1))); cbn [bind]; trivial.
    destruct (vec_set dp j a0); cbn [bind]; trivial.
  - destruct (vec_get dpPrev (wrap (j - 1))); cbn [bind]; trivial.
    destruct (vec_get dp (wrap (j - 1))); cbn [bind]; trivial.
    destruct (vec_get dpPrev j); cbn [bind]; trivial.
    destruct (vec_set dp j _); cbn [bind]; trivial.
Qed.

Lemma fill_rows_lowered s1 s2 :
  forall n i dp dpPrev,
    fill_rows false s1 s2 n i dp dpPrev
    = fill_rows true (lowered s1) (lowered s2) n i dp dpPrev.
Proof.
  induction n as [|n IH]; intros i dp dpPrev; cbn [fill_rows]; trivial.
  destruct (vec_set dpPrev 0 i); cbn [bind]; trivial.
  rewrite fill_row_lowered. simpl (len (lowered s2)).
  destruct (fill_row true _ _ _ _ _ _ _); cbn [bind]; trivial.
Qed.

Lemma edit_distance_lowered s1 s2 :
  edit_distance s1 s2 false = edit_distance (lowered s1) (lowered s2) true.
Proof.
  unfold edit_distance, size. simpl (len (lowered _)).
  destruct ((len s1 =? 0) || (len s2 =? 0)); trivial.
  destruct (init_row _ _ _); cbn [bind]; trivial.
  now rewrite fill_rows_lowered.
Qed.

Lemma edits_map (f : ascii -> ascii) s t n :
  edits s t n -> edits (map f s) (map f t) n.
Proof. induction 1; simpl; constructor; assumption. Qed.

(** With [case_sensitive = false], [edit_distance] of two valid views of
    ASCII characters is the Levenshtein distance of the two character
    sequences with ['A'] to ['Z'] replaced by lower case.  It is symmetric
    and never more than the case-sensitive distance.  (On a character
    above 127 [std::tolower] is not defined where [char] is signed.) *)
Theorem edit_distance_ignoring_case (a b : string_ref) :
  valid a -> valid b -> ascii_only (chars a) -> ascii_only (chars b) ->
  edit_distance a b false
  = Val (Z.of_nat (levenshtein (map tolower (chars a)) (map tolower (chars b))))
  /\ edit_distance a b false = edit_distance b a false
  /\ (forall n m, edit_distance a b false = Val n ->
                  edit_distance a b true = Val m -> 0 <= n <= m)
  /\ (chars a = chars b -> edit_distance a b false = Val 0).
Proof.
  intros Ha Hb _ _.
  assert (E : forall x y, valid x -> valid y ->
            edit_distance x y false
            = Val (Z.of_nat (levenshtein (map tolower (chars x))
                               (map tolower (chars y))))).
  { intros x y Hx Hy. rewrite edit_distance_lowered.
    rewrite edit_distance_levenshtein by now apply lowered_valid.
    now rewrite !lowered_chars. }
  rewrite !E by assumption. split; [reflexivity|].
  split; [now rewrite levenshtein_sym|]. split.
  - rewrite edit_distance_levenshtein by assumption.
    intros n m [= <-] [= <-].
    pose proof (levenshtein_least _ _ _
                  (edits_map tolower _ _ _
                     (levenshtein_edits (chars a) (chars b)))). lia.
  - intros ->. now rewrite levenshtein_refl.
Qed.

Lemma edit_distance_ignoring_case_witness :
  (valid (std "Abcd") /\ valid (std "abcD")
   /\ ascii_only (chars (std "Abcd")) /\ ascii_only (chars (std "abcD")))
  /\ edit_distance (std "Abcd") (std "abcD") false = Val 0
  /\ edit_distance (std "Abcd") (std "abcD") true = Val 2.
Proof.
  assert (Ha : valid (std "Abcd")) by (unfold valid; simpl; size_t_arith).
  assert (Hb : valid (std "abcD")) by (unfold valid; simpl; size_t_arith).
  assert (Aa : ascii_only (chars (std "Abcd")))
    by (repeat constructor; reflexivity).
  assert (Ab : ascii_only (chars (std "abcD")))
    by (repeat constructor; reflexivity).
  destruct (edit_distance_ignoring_case _ _ Ha Hb Aa Ab) as (H & _).
  split; [auto|]. split; [rewrite H|]; reflexivity.
Defined.

(** ** Lowering a C string in place *)

Lemma lower_or_tolower c : lower_or c = tolower c.
Proof. destruct c as [[] [] [] [] [] [] [] []]; reflexivity. Qed.

Lemma lower_or_idempotent c : lower_or (lower_or c) = lower_or c.
Proof. destruct c as [[] [] [] [] [] [] [] []]; reflexivity. Qed.

Lemma lower_or_not_nul c : c <> NUL -> lower_or c <> NUL.
Proof.
  destruct c as [[] [] [] [] [] [] [] []]; intros H E;
    try discriminate E; now apply H.
Qed.

Lemma until_nul_split l s :
  until_nul l = Some s ->
  ~ In NUL s /\ exists rest, l = s ++ NUL :: rest.
Proof.
  revert s. induction l as [|c l IH]; intros s; simpl; [discriminate|].
  destruct (Ascii.eqb_spec c NUL) as [->|Hne].
  - intros [= <-]. split; [tauto|]. now exists l.
  - destruct (until_nul l) as [s'|]; [|discriminate]. intros [= <-].
    destruct (IH s' eq_refl) as [Hn [rest ->]]. split.
    + intros [E|E]; [congruence|contradiction].
    + now exists rest.
Qed.

Lemma cstr_tolower_loop_lowers s rest :
  ~ In NUL s ->
  cstr_tolower_loop (s ++ NUL :: rest) = Val (map lower_or s ++ NUL :: rest).
Proof.
  induction s as [|c s IH]; intros Hn.
  - reflexivity.
  - simpl. destruct (Ascii.eqb_spec c NUL) as [->|_]; [simpl in Hn; tauto|].
    rewrite IH by (simpl in Hn; tauto). reflexivity.
Qed.

Lemma cstr_tolower_loop_unterminated l :
  until_nul l = None -> cstr_tolower_loop l = Undef.
Proof.
  induction l as [|c l IH]; simpl; trivial.
  destruct (Ascii.eqb c NUL); [discriminate|].
  destruct (until_nul l); [discriminate|]. intros _. now rewrite IH.
Qed.

(** [cstr_tolower] rewrites the C string at [pstr] to lower case in place:
    afterwards the C string there is the old one with ['A'] to ['Z']
    replaced as [std::tolower] does, with the same length; the characters
    before [pstr] and from the terminator on are untouched; and a second
    call changes nothing. *)
Theorem cstr_tolower_lowers_in_place (b : list ascii) (o : Z) (s : list ascii) :
  c_string (Ptr b o) = Val s ->
  exists b',
    cstr_tolower (Ptr b o) = Val (Ptr b' o)
    /\ c_string (Ptr b' o) = Val (map tolower s)
    /\ length b' = length b
    /\ firstn (Z.to_nat o) b' = firstn (Z.to_nat o) b
    /\ skipn (Z.to_nat o + length s) b' = skipn (Z.to_nat o + length s) b
    /\ cstr_tolower (Ptr b' o) = Val (Ptr b' o).
Proof.
  unfold c_string, cstr_tolower.
  destruct ((0 <=? o) && (o <=? Z.of_nat (length b))) eqn:Hb; [|discriminate].
  apply andb_true_iff in Hb. rewrite !Z.leb_le in Hb.
  destruct (until_nul (skipn (Z.to_nat o) b)) as [t|] eqn:Ht; [|discriminate].
  intros [= <-]. destruct (until_nul_split _ _ Ht) as [Hn [rest Hrest]].
  rewrite Hrest, cstr_tolower_loop_lowers by assumption. cbn [bind].
  set (b' := firstn (Z.to_nat o) b ++ map lower_or t ++ NUL :: rest).
  assert (Hlen0 : length (firstn (Z.to_nat o) b) = Z.to_nat o)
    by (rewrite length_firstn; lia).
  assert (Hlen : length b' = length b).
  { unfold b'. rewrite <- (firstn_skipn (Z.to_nat o) b) at 2.
    rewrite Hrest, !length_app, length_map. reflexivity. }
  assert (Hskip : skipn (Z.to_nat o) b' = map lower_or t ++ NUL :: rest).
  { unfold b'. rewrite skipn_app, Hlen0, Nat.sub_diag.
    rewrite skipn_all2 by lia. reflexivity. }
  assert (Hn' : ~ In NUL (map lower_or t)).
  { intros Hin. apply in_map_iff in Hin. destruct Hin as (c & Hc & Hin).
    apply (lower_or_not_nul c); trivial. intros ->. contradiction. }
  exists b'. split; [reflexivity|].
  rewrite Hlen.
  replace ((0 <=? o) && (o <=? Z.of_nat (length b))) with true
    by (symmetry; rewrite andb_true_iff, !Z.leb_le; lia).
  rewrite Hskip. split; [|split; [reflexivity|split; [|split]]].
  - rewrite until_nul_app by assumption. f_equal.
    apply map_ext, lower_or_tolower.
  - unfold b'. rewrite firstn_app, Hlen0, Nat.sub_diag. simpl.
    rewrite app_nil_r. apply firstn_all2. lia.
  - replace (Z.to_nat o + length t)%nat with (length t + Z.to_nat o)%nat
      by lia.
    rewrite <- !skipn_skipn. rewrite Hskip, Hrest.
    rewrite !skipn_app, length_map, Nat.sub_diag.
    rewrite (skipn_all2 (map lower_or t)) by (rewrite length_map; lia).
    now rewrite (skipn_all2 t) by lia.
  - rewrite cstr_tolower_loop_lowers by assumption. cbn [bind].
    do 2 f_equal. rewrite map_map.
    rewrite (map_ext _ _ lower_or_idempotent).
    unfold b' at 1. rewrite firstn_app, Hlen0, Nat.sub_diag. simpl.
    rewrite app_nil_r. rewrite firstn_firstn, Nat.min_id. reflexivity.
Qed.

Lemma cstr_tolower_lowers_in_place_witness :
  c_string (lit "Hello, World") = Val (list_ascii_of_string "Hello, World")
  /\ (p <- cstr_tolower (lit "Hello, World") ;; c_string p)
     = Val (list_ascii_of_string "hello, world").
Proof.
  assert (Hc : c_string (lit "Hello, World")
               = Val (list_ascii_of_string "Hello, World")) by reflexivity.
  destruct (cstr_tolower_lowers_in_place _ _ _ Hc) as (b' & Hb' & Hs & _).
  split; [exact Hc|]. unfold lit, c_str. rewrite Hb'. cbn [bind].
  rewrite Hs. reflexivity.
Defined.

(** ** Searching for a pattern: what the code gets right *)

Lemma matches_at_prefixb pat s k :
  matches_at pat s k = prefixb pat (skipn k s).
Proof.
  unfold matches_at. destruct (list_eq_dec ascii_dec _ _) as [E|E].
  - symmetry. now apply prefixb_firstn.
  - destruct (prefixb _ _) eqn:E'; trivial. now apply prefixb_firstn in E'.
Qed.

Lemma matches_at_fits pat s k :
  matches_at pat s k = true -> (k + length pat <= length s)%nat \/ pat = [].
Proof.
  rewrite matches_at_prefixb, prefixb_firstn. intros H.
  destruct pat as [|c pat]; [now right|left].
  apply (f_equal (@length ascii)) in H.
  rewrite length_firstn, length_skipn in H. cbn [length] in *. lia.
Qed.

(** [rfind(pattern)] works on owned copies of both views and is right on
    every pair of valid views: for a non-empty pattern it returns the
    position of the last occurrence, which lies within the view, and
    [npos] when the pattern does not occur.  For the empty pattern it
    returns 0, as [find] does. *)
Theorem rfind_str_last_occurrence (v pattern : string_ref) :
  valid v -> valid pattern ->
  (len pattern = 0 ->
   rfind_str v pattern = Val 0 /\ find_str v pattern = Val 0)
  /\ (0 < len pattern ->
      exists r, rfind_str v pattern = Val r
        /\ ((r = npos
             /\ forall k, matches_at (chars pattern) (chars v) k = false)
            \/ (0 <= r /\ r + len pattern <= len v
                /\ matches_at (chars pattern) (chars v) (Z.to_nat r) = true
                /\ forall k, (Z.to_nat r < k)%nat ->
                     matches_at (chars pattern) (chars v) k = false))).
Proof.
  intros Hv Hp. pose proof (chars_length _ Hv) as L.
  pose proof (chars_length _ Hp) as Lp.
  split.
  - intros E. unfold rfind_str, find_str, size. rewrite E. split; reflexivity.
  - intros Hpos. rewrite rfind_str_last_occ by assumption.
    destruct (last_occ (chars pattern) (chars v) 0) as [i|] eqn:E.
    + destruct (last_occ_some _ _ _ _ E) as (k & -> & Hk & Hm & Hlast).
      exists (0 + Z.of_nat k). split; [reflexivity|]. right.
      rewrite Z.add_0_l, Nat2Z.id. rewrite <- matches_at_prefixb in Hm.
      split; [lia|]. split; [|split; [exact Hm|]].
      * destruct (matches_at_fits _ _ _ Hm) as [Hfit|Hnil]; [lia|].
        rewrite Hnil in Lp. simpl in Lp. lia.
      * intros k' Hk'. rewrite matches_at_prefixb.
        destruct (Nat.le_gt_cases k' (length (chars v))) as [Hin|Hout].
        -- apply Hlast. lia.
        -- rewrite skipn_all2 by lia.
           destruct (chars pattern); [simpl in Lp; lia|reflexivity].
    + exists npos. split; [reflexivity|]. left. split; trivial.
      intros k. rewrite matches_at_prefixb. apply (last_occ_none _ _ _ E).
Qed.

Lemma rfind_str_last_occurrence_witness :
  (valid (std "abcdefabgh") /\ valid (std "ab"))
  /\ rfind_str (std "abcdefabgh") (std "ab") = Val 6
  /\ rfind_str (take_front (std "abcdefabgh") 7) (std "ab") = Val 0
  /\ rfind_str (std "abcdefabgh") (std "") = Val 0.
Proof.
  assert (Hv : valid (std "abcdefabgh")) by (unfold valid; simpl; size_t_arith).
  assert (Hp : valid (std "ab")) by (unfold valid; simpl; size_t_arith).
  assert (He : valid (std "")) by (unfold valid; simpl; size_t_arith).
  destruct (rfind_str_last_occurrence (std "abcdefabgh") (std "") Hv He)
    as [Hempty _].
  split; [auto|]. split; [reflexivity|]. split; [reflexivity|].
  apply Hempty. reflexivity.
Defined.

(** On a valid view that is also a C string (a terminator right after its
    last character and none inside), [find(pattern)] returns the position
    of the first occurrence of a non-empty terminator-free pattern, which
    lies within the view, and [npos] when there is none; [contains] is
    true exactly when the pattern occurs. *)
Theorem find_str_first_occurrence (v pattern : string_ref) :
  valid v -> terminated v ->
  valid pattern -> 0 < len pattern -> ~ In NUL (chars pattern) ->
  exists r, find_str v pattern = Val r
    /\ contains_str v pattern = Val (negb (r =? npos))
    /\ ((r = npos
         /\ forall k, matches_at (chars pattern) (chars v) k = false)
        \/ (0 <= r /\ r + len pattern <= len v
            /\ matches_at (chars pattern) (chars v) (Z.to_nat r) = true
            /\ forall k, (k < Z.to_nat r)%nat ->
                 matches_at (chars pattern) (chars v) k = false)).
Proof.
  intros Hv Ht Hp Hpos Hnul. pose proof (chars_length _ Hv) as L.
  pose proof (chars_length _ Hp) as Lp.
  unfold contains_str. rewrite find_str_terminated by assumption.
  destruct (first_occ (chars pattern) (chars v) 0) as [i|] eqn:E.
  - destruct (first_occ_some _ _ _ _ E) as (k & -> & Hk & Hm & Hfirst).
    exists (0 + Z.of_nat k). split; [reflexivity|]. split; [reflexivity|].
    right. rewrite Z.add_0_l, Nat2Z.id. rewrite <- matches_at_prefixb in Hm.
    split; [lia|]. split; [|split; [exact Hm|]].
    + destruct (matches_at_fits _ _ _ Hm) as [Hfit|Hnil]; [lia|].
      rewrite Hnil in Lp. simpl in Lp. lia.
    + intros k' Hk'. rewrite matches_at_prefixb. now apply Hfirst.
  - exists npos. split; [reflexivity|]. split; [reflexivity|].
    left. split; trivial.
    intros k. rewrite matches_at_prefixb. apply (first_occ_none _ _ _ E).
Qed.

Lemma find_str_first_occurrence_witness :
  (valid (std "abcab") /\ terminated (std "abcab")
   /\ valid (std "ab") /\ 0 < len (std "ab") /\ ~ In NUL (chars (std "ab")))
  /\ (exists r, find_str (std "abcab") (std "ab") = Val r /\ r <> npos).
Proof.
  assert (Hv : valid (std "abcab")) by (unfold valid; simpl; size_t_arith).
  assert (Ht : terminated (std "abcab"))
    by (split; [reflexivity|simpl; intuition discriminate]).
  assert (Hp : valid (std "ab")) by (unfold valid; simpl; size_t_arith).
  assert (Hpos : 0 < len (std "ab")) by (simpl; lia).
  assert (Hn : ~ In NUL (chars (std "ab"))) by (simpl; intuition discriminate).
  destruct (find_str_first_occurrence _ _ Hv Ht Hp Hpos Hn)
    as (r & Hr & _ & Hcase).
  split; [auto 6|]. exists r. split; [exact Hr|].
  destruct Hcase as [[_ Hnone]|(_ & Hfit & _)].
  - specialize (Hnone O). discriminate Hnone.
  - simpl in Hfit. rewrite npos_eq. lia.
Defined.

(** Witnesses for the splitting lemmas above. *)
Lemma split_char_spec_witness :
  valid (std "abcdefabgh")
  /\ (r <- split (std "abcdefabgh") "c" ;; Val (chars (fst r), chars (snd r)))
     = Val (list_ascii_of_string "ab", list_ascii_of_string "defabgh")
  /\ split (std "abcdefabgh") "z"
     = Val (std "abcdefabgh", string_ref_default).
Proof.
  assert (Hv : valid (std "abcdefabgh")) by (unfold valid; simpl; size_t_arith).
  destruct (split_char_spec (std "abcdefabgh") "z" Hv)
    as (before & after & Hs & _ & _ & _ & Habsent).
  split; [exact Hv|]. split; [reflexivity|].
  rewrite Hs. destruct Habsent as (Hb & Ha);
    [simpl; intuition discriminate|].
  now rewrite Hb, Ha.
Defined.

Lemma rsplit_str_spec_witness :
  (valid (std "abcdefabgh") /\ valid (std "ab") /\ 0 < len (std "ab"))
  /\ (exists before after,
        rsplit_str (std "abcdefabgh") (std "ab") = Val (before, after)
        /\ chars (std "abcdefabgh")
           = chars before ++ chars (std "ab") ++ chars after).
Proof.
  assert (Hv : valid (std "abcdefabgh")) by (unfold valid; simpl; size_t_arith).
  assert (Hp : valid (std "ab")) by (unfold valid; simpl; size_t_arith).
  assert (Hpos : 0 < len (std "ab")) by (simpl; lia).
  destruct (rsplit_str_spec _ _ Hv Hp Hpos)
    as (before & after & Hs & _ & _ & Hfound & _).
  split; [auto|]. exists before, after. split; [exact Hs|].
  apply Hfound. now exists O.
Defined.

Lemma rsplit_char_found_witness :
  (valid (std "abcdefabgh") /\ 0 <= 6 < len (std "abcdefabgh")
   /\ nth_error (chars (std "abcdefabgh")) (Z.to_nat 6) = Some "a"%char)
  /\ (exists before after,
        rsplit 4 (std "abcdefabgh") "a" = Some (Val (before, after))
        /\ chars before = list_ascii_of_string "abcdef"
        /\ chars after = list_ascii_of_string "bgh").
Proof.
  assert (Hv : valid (std "abcdefabgh")) by (unfold valid; simpl; size_t_arith).
  assert (Hj : 0 <= 6 < len (std "abcdefabgh")) by (simpl; lia).
  assert (Hc : nth_error (chars (std "abcdefabgh")) (Z.to_nat 6)
               = Some "a"%char) by reflexivity.
  assert (Hlast : forall k, 6 < k < len (std "abcdefabgh") ->
            nth_error (chars (std "abcdefabgh")) (Z.to_nat k)
            <> Some "a"%char).
  { intros k Hk. simpl in Hk.
    assert (E : k = 7 \/ k = 8 \/ k = 9) by lia.
    destruct E as [ E | [ E | E ] ]; rewrite E; discriminate. }
  assert (Hfuel : (Z.to_nat (len (std "abcdefabgh") - 1 - 6) < 4)%nat)
    by (simpl; lia).
  destruct (rsplit_char_found _ "a"%char 6 Hv Hj Hc Hlast 4%nat Hfuel)
    as (before & after & Hs & _ & _ & Hb & Ha).
  split; [auto|]. exists before, after.
  split; [exact Hs|]. split; [rewrite Hb | rewrite Ha]; reflexivity.
Defined.

Lemma split_str_terminated_witness :
  (valid (std "abcdefabgh") /\ terminated (std "abcdefabgh")
   /\ valid (std "cd") /\ 0 < len (std "cd") /\ ~ In NUL (chars (std "cd")))
  /\ (exists before after,
        split_str (std "abcdefabgh") (std "cd") = Val (before, after)
        /\ chars (std "abcdefabgh")
           = chars before ++ chars (std "cd") ++ chars after).
Proof.
  assert (Hv : valid (std "abcdefabgh")) by (unfold valid; simpl; size_t_arith).
  assert (Ht : terminated (std "abcdefabgh"))
    by (split; [reflexivity|simpl; intuition discriminate]).
  assert (Hp : valid (std "cd")) by (unfold valid; simpl; size_t_arith).
  assert (Hpos : 0 < len (std "cd")) by (simpl; lia).
  assert (Hn : ~ In NUL (chars (std "cd"))) by (simpl; intuition discriminate).
  destruct (split_str_terminated _ _ Hv Ht Hp Hpos Hn)
    as (before & after & Hs & _ & _ & Hfound & _).
  split; [auto 6|]. exists before, after. split; [exact Hs|].
  apply Hfound. now exists 2%nat.
Defined.


(** ** A view and its own prefixes and suffixes *)

Lemma memCompare_same p n l : load p n = Val l -> memCompare p p n = Val 0.
Proof.
  intros H. unfold memCompare, memcmp. destruct (n =? 0); trivial.
  rewrite H. cbn [bind]. now rewrite lex_cmp_refl.
Qed.

(** Every view [starts_with] what [take_front(n)] returns and [ends_with]
    what [take_back(n)] returns, for every [n], also beyond the length. *)
Theorem view_has_its_own_ends (v : string_ref) (n : Z) :
  valid v -> in_range n ->
  starts_with v (take_front v n) = Val true
  /\ (t <- take_back v n ;; ends_with v t) = Val true.
Proof.
  intros Hv Hn. pose proof (valid_len_bound _ Hv) as B.
  pose proof (valid_in_range _ Hv) as R.
  split.
  - unfold starts_with, take_front. simpl.
    replace (Z.min n (len v) <=? len v) with true
      by (symmetry; apply Z.leb_le; lia).
    rewrite (memCompare_same _ _ _
               (chars_firstn v (Z.min n (len v)) Hv
                  ltac:(unfold in_range in *; lia))).
    reflexivity.
  - unfold take_back. destruct (Z.leb_spec n (len v)) as [E|E].
    + rewrite (wrap_small (len v - n)) by size_t_arith.
      rewrite drop_front_window by (trivial; unfold in_range in *; lia).
      cbn [bind]. unfold ends_with. simpl len. simpl ps.
      replace (len v - (len v - n) <=? len v) with true
        by (symmetry; apply Z.leb_le; unfold in_range in *; lia).
      destruct (suffix_window v (len v - n) Hv) as [Vt _];
        [unfold in_range in *; lia|].
      assert (Hptr : ptr_sub (end_ v) (len v - (len v - n))
                     = ptr_add (ps v) (len v - n)).
      { unfold end_. destruct (ps v); simpl; [reflexivity|f_equal; lia]. }
      rewrite Hptr.
      pose proof (chars_firstn _ (len v - (len v - n)) Vt
                    ltac:(simpl; unfold in_range in *; lia)) as Hload.
      simpl ps in Hload. rewrite (memCompare_same _ _ _ Hload). reflexivity.
    + cbn [bind]. unfold ends_with. rewrite Z.leb_refl.
      assert (Hptr : ptr_sub (end_ v) (len v) = ps v).
      { unfold end_. destruct (ps v); simpl; [reflexivity|f_equal; lia]. }
      rewrite Hptr.
      rewrite (memCompare_same _ _ _ (load_chars v Hv)). reflexivity.
Qed.

Lemma view_has_its_own_ends_witness :
  (valid (std "abcdefgh") /\ in_range 3)
  /\ starts_with (std "abcdefgh") (take_front (std "abcdefgh") 3) = Val true.
Proof.
  assert (Hv : valid (std "abcdefgh")) by (unfold valid; simpl; size_t_arith).
  assert (H3 : in_range 3) by size_t_arith.
  destruct (view_has_its_own_ends (std "abcdefgh") 3 Hv H3) as [H _].
  split; [auto|]. exact H.
Defined.

(** ** Counting a pattern at the edges *)

(** [count_str] returns 0 for a pattern longer than the view, and
    [length + 1] for the empty pattern, which matches at every position
    including the end; the count is never more than [length + 1]. *)
Theorem count_str_edges (v pattern : string_ref) :
  valid v -> valid pattern ->
  (len v < len pattern -> count_str v pattern = Val 0)
  /\ (len pattern = 0 -> count_str v pattern = Val (len v + 1))
  /\ (forall n, count_str v pattern = Val n -> 0 <= n <= len v + 1).
Proof.
  intros Hv Hp. pose proof (valid_len_bound _ Hv) as Bv.
  pose proof (valid_len_bound _ Hp) as Bp.
  pose proof (chars_length _ Hv) as L. pose proof (chars_length _ Hp) as Lp.
  assert (Hlong : len v < len pattern -> count_str v pattern = Val 0).
  { intros Hlt. unfold count_str.
    now replace (len pattern >? len v) with true
      by (symmetry; rewrite Z.gtb_ltb; apply Z.ltb_lt; lia). }
  assert (Hfit : len pattern <= len v ->
            count_str v pattern
            = Val (Z.of_nat (length
                     (filter (matches_at (chars pattern) (chars v))
                        (seq 0 (Z.to_nat (len v - len pattern + 1))))))).
  { intros Hle. unfold count_str.
    replace (len pattern >? len v) with false
      by (symmetry; rewrite Z.gtb_ltb; apply Z.ltb_ge; lia).
    rewrite (wrap_small (len v - len pattern)) by size_t_arith.
    rewrite (wrap_small (len v - len pattern + 1)) by size_t_arith.
    rewrite Z.sub_0_r.
    rewrite (wrap_small (len v - len pattern + 1)) by size_t_arith.
    rewrite (count_str_loop_counts v pattern Hv Hp Hle) by lia.
    now rewrite Z.add_0_l. }
  split; [exact Hlong|]. split.
  - intros E. rewrite Hfit by lia. f_equal.
    assert (Hnil : chars pattern = [])
      by (destruct (chars pattern); [trivial|simpl in Lp; lia]).
    rewrite Hnil.
    assert (Hall : forall l, filter (matches_at [] (chars v)) l = l).
    { assert (Hm : forall k, matches_at [] (chars v) k = true).
      { intros k. unfold matches_at. simpl.
        now destruct (list_eq_dec ascii_dec [] []). }
      induction l as [|k l IH]; cbn [filter]; [reflexivity|].
      now rewrite Hm, IH. }
    rewrite Hall, length_seq. lia.
  - intros n. destruct (Z.le_gt_cases (len pattern) (len v)) as [E|E].
    + rewrite Hfit by assumption. intros [= <-].
      pose proof (filter_length_le (matches_at (chars pattern) (chars v))
                    (seq 0 (Z.to_nat (len v - len pattern + 1)))) as Hf.
      rewrite length_seq in Hf. lia.
    + rewrite Hlong by lia. intros [= <-]. lia.
Qed.

Lemma count_str_edges_witness :
  (valid (std "abc") /\ valid (std ""))
  /\ count_str (std "abc") (std "") = Val 4
  /\ count_str (std "") (std "abc") = Val 0.
Proof.
  assert (Hv : valid (std "abc")) by (unfold valid; simpl; size_t_arith).
  assert (He : valid (std "")) by (unfold valid; simpl; size_t_arith).
  destruct (count_str_edges (std "abc") (std "") Hv He) as (_ & Hempty & _).
  destruct (count_str_edges (std "") (std "abc") He Hv) as (Hlong & _).
  split; [auto|]. split.
  - rewrite Hempty by reflexivity. reflexivity.
  - apply Hlong. simpl. lia.
Defined.

(** ** Backward search with a predicate *)

Lemma rfind_char_loop_as_rfind_if fuel p c i :
  rfind_char_loop fuel p c i = rfind_if_loop fuel p (Ascii.eqb c) i.
Proof.
  revert i. induction fuel as [|fuel IH]; intros i; simpl; trivial.
  destruct (i >=? 0); trivial. destruct (read p i); trivial.
  now rewrite IH.
Qed.

Lemma rfind_if_loop_hit v pred j :
  valid v -> 0 <= j < len v -> holds_at v pred j ->
  forall n i, i = j + Z.of_nat n -> i < len v ->
    (forall k, j < k <= i -> ~ holds_at v pred k) ->
    forall fuel, (n < fuel)%nat ->
    rfind_if_loop fuel (ps v) pred i = Some (Val j).
Proof.
  intros Hv Hj (xj & Hxj & Hpj). pose proof (valid_len_bound _ Hv) as B.
  induction n as [|n IH]; intros i Hi Hlt Hno fuel Hfuel;
    (destruct fuel as [|fuel]; [lia|]); cbn [rfind_if_loop];
    (replace (i >=? 0) with true
      by (symmetry; rewrite Z.geb_leb; apply Z.leb_le; lia));
    destruct (read_chars v i Hv) as (x & Hx & ->); try lia.
  - replace i with j in * by lia. rewrite Hxj in Hx. injection Hx as <-.
    now rewrite Hpj.
  - destruct (pred x) eqn:Hp.
    + exfalso. apply (Hno i); [lia|]. now exists x.
    + rewrite wrap_small by size_t_arith.
      apply IH; try lia. intros k Hk. apply Hno. lia.
Qed.

(** When some character at or before [min(rstart, length - 1)] satisfies
    the predicate, [rfind_if] returns the index of the last such character
    as soon as it has fuel for the indices in between, and more fuel does
    not change the result; [rfind_if_not] is the same search for a
    character that fails the predicate, and [rfind_char] is [rfind_if]
    with "equals [c]" on every input. *)
Theorem rfind_if_last_before (v : string_ref) (pred : ascii -> bool)
  (rstart j : Z) (fuel : nat) :
  valid v -> 0 < len v -> in_range rstart ->
  0 <= j <= Z.min rstart (len v - 1) ->
  holds_at v pred j ->
  (forall k, j < k <= Z.min rstart (len v - 1) -> ~ holds_at v pred k) ->
  (Z.to_nat (Z.min rstart (len v - 1) - j) < fuel)%nat ->
  rfind_if fuel v pred rstart = Some (Val j)
  /\ (forall more, rfind_if (fuel + more) v pred rstart = Some (Val j))
  /\ rfind_if_not fuel v (fun c => negb (pred c)) rstart = Some (Val j)
  /\ (forall f c r, rfind_char f v c r = rfind_if f v (Ascii.eqb c) r).
Proof.
  intros Hv Hpos Hr Hj Hat Hno Hfuel.
  pose proof (valid_len_bound _ Hv) as B.
  assert (H : rfind_if fuel v pred rstart = Some (Val j)).
  { unfold rfind_if. rewrite wrap_small by size_t_arith.
    apply (rfind_if_loop_hit v pred j Hv)
      with (n := Z.to_nat (Z.min rstart (len v - 1) - j));
      trivial; lia. }
  split; [exact H|]. split; [|split].
  - intros more. unfold rfind_if in *. now apply rfind_if_loop_more_fuel.
  - unfold rfind_if_not. rewrite <- H. unfold rfind_if.
    assert (E : forall f i, rfind_if_loop f (ps v)
                  (fun c => negb (negb (pred c))) i
                = rfind_if_loop f (ps v) pred i).
    { induction f as [|f IH]; intros i; simpl; trivial.
      destruct (i >=? 0); trivial. destruct (read (ps v) i); trivial.
      rewrite negb_involutive. now rewrite IH. }
    apply E.
  - intros f c r. unfold rfind_char, rfind_if.
    apply rfind_char_loop_as_rfind_if.
Qed.

Lemma rfind_if_last_before_witness :
  (valid (std "abc") /\ 0 < len (std "abc") /\ in_range npos
   /\ 0 <= 1 <= Z.min npos (len (std "abc") - 1)
   /\ holds_at (std "abc") (fun c => (N_of_ascii c <? N_of_ascii "c")%N) 1)
  /\ rfind_if 2 (std "abc") (fun c => (N_of_ascii c <? N_of_ascii "c")%N) npos
     = Some (Val 1).
Proof.
  assert (Hv : valid (std "abc")) by (unfold valid; simpl; size_t_arith).
  assert (Hpos : 0 < len (std "abc")) by (simpl; lia).
  assert (Hr : in_range npos) by (rewrite npos_eq; size_t_arith).
  assert (Hj : 0 <= 1 <= Z.min npos (len (std "abc") - 1))
    by (rewrite npos_eq; simpl; lia).
  assert (Hat : holds_at (std "abc")
                  (fun c => (N_of_ascii c <? N_of_ascii "c")%N) 1)
    by (exists "b"%char; split; reflexivity).
  assert (Hno : forall k, 1 < k <= Z.min npos (len (std "abc") - 1) ->
            ~ holds_at (std "abc")
                (fun c => (N_of_ascii c <? N_of_ascii "c")%N) k).
  { intros k Hk. rewrite npos_eq in Hk. simpl in Hk.
    assert (E : k = 2) by lia. rewrite E.
    intros (x & Hx & Hp). simpl in Hx. injection Hx as <-. discriminate Hp. }
  assert (Hfuel : (Z.to_nat (Z.min npos (len (std "abc") - 1) - 1) < 2)%nat)
    by (rewrite npos_eq; simpl; lia).
  destruct (rfind_if_last_before _ _ _ _ _ Hv Hpos Hr Hj Hat Hno Hfuel)
    as [H _].
  split; [auto 6|]. exact H.
Defined.
